(** * Exact inference over discrete factors

    Shallow embedding of
      - 002_Probabilidad/002_RazonamientoProbabilistico/005_ElimVariables.py
        ([Factor], [multiply_factors], [sum_out],
        [VariableEliminationSolver.infer]), and
      - 002_Probabilidad/002_RazonamientoProbabilistico/004_InterEnumeracion.py
        ([MotorDeInferencia] and the network [ESTRUCTURA_ALARMA]).

    Conventions of the embedding.
      - Variable identifiers and domain values are Python strings: [string].
      - A Python tuple of values is a [list string].
      - Python numbers (float weights, the int [0] used as a default and as the
        start of [sum]) are exact rationals [Qc]: rounding is not modelled, a
        weight is the rational its literal denotes.
      - A Python [dict] keeps its keys in insertion order; it is an association
        list read with [dict_get] and written with [dict_set].
      - A Python [set] iterates in an order fixed by hashing; [set_order] is
        that order, a parameter of everything that iterates a set.
      - A raised exception is the [Raise] branch of [result]. *)

From Stdlib Require Import QArith Qcanon.
From stdpp Require Import base option list sorting strings numbers gmap.

Set Warnings "-clear-no-such-hyp".

Local Open Scope Qc_scope.

(** ** Exceptions *)

Inductive error : Set := IndexError | KeyError | TypeError | ZeroDivisionError.

Inductive result (A : Type) : Type :=
  | Ok (a : A)
  | Raise (e : error).
Arguments Ok {A} a.
Arguments Raise {A} e.

Global Instance error_eq_dec : EqDecision error.
Proof. solve_decision. Defined.

Global Instance result_eq_dec `{EqDecision A} : EqDecision (result A).
Proof. solve_decision. Defined.

Global Instance result_ret : MRet result := λ A a, Ok a.
Global Instance result_bind : MBind result := λ A B f m,
  match m with
  | Ok a => f a
  | Raise e => Raise e
  end.
Global Instance result_fmap : FMap result := λ A B f m,
  match m with
  | Ok a => Ok (f a)
  | Raise e => Raise e
  end.

(** [[body(x) for x in l]] where the body may raise. *)
Fixpoint for_list {A B} (body : A → result B) (l : list A) : result (list B) :=
  match l with
  | [] => Ok []
  | x :: l' => y ← body x; ys ← for_list body l'; Ok (y :: ys)
  end.

(** A loop threading an accumulator, the body may raise. *)
Fixpoint for_acc {A S} (body : S → A → result S) (s : S) (l : list A) : result S :=
  match l with
  | [] => Ok s
  | x :: l' => body s x ≫= λ s', for_acc body s' l'
  end.

(** ** Numbers *)

(** Python's [sum]: a left fold of [+] starting at [0]. *)
Definition py_sum (l : list Qc) : Qc := foldl Qcplus 0 l.
Global Arguments py_sum : simpl never.

(** ** Insertion-ordered dictionaries *)

Section dict.
Context {K V : Type} `{EqDecision K}.

(** [d.get(k)], [None] when [k not in d]. *)
Fixpoint dict_get (d : list (K * V)) (k : K) : option V :=
  match d with
  | [] => None
  | (k', v) :: d' => if decide (k' = k) then Some v else dict_get d' k
  end.

(** [d[k] = v]: an existing key keeps its position, a new one goes last. *)
Fixpoint dict_set (d : list (K * V)) (k : K) (v : V) : list (K * V) :=
  match d with
  | [] => [(k, v)]
  | (k', v') :: d' =>
      if decide (k' = k) then (k', v) :: d' else (k', v') :: dict_set d' k v
  end.

(** [d.keys()] and [d.values()], in insertion order. *)
Definition dict_keys (d : list (K * V)) : list K := d.*1.
Definition dict_values (d : list (K * V)) : list V := d.*2.

(** [{key(x): val(x) for x in l}]. *)
Definition dict_comp {A} (key : A → K) (val : A → V) (l : list A) : list (K * V) :=
  foldl (λ d x, dict_set d (key x) (val x)) [] l.
End dict.

(** [d.get(k, 0)]. *)
Definition dict_get0 {K} `{EqDecision K} (d : list (K * Qc)) (k : K) : Qc :=
  default 0 (dict_get d k).

(** ** Factors (005_ElimVariables.py) *)

Record Factor : Type := mkFactor {
  variables : list string;
  cpt : list (list string * Qc)
}.

Global Instance Factor_eq_dec : EqDecision Factor.
Proof. solve_decision. Defined.

(** [t.index(x)]: the first position of [x]. *)
Fixpoint index_of (x : string) (t : list string) : option nat :=
  match t with
  | [] => None
  | y :: t' => if decide (y = x) then Some O else S <$> index_of x t'
  end.

(** [t[:i] + t[i+1:]]. *)
Definition drop_at {A} (i : nat) (t : list A) : list A := take i t ++ drop (S i) t.

(** The body of the loop of [sum_out]: the entry [(assignment, w)] of
    [factor.cpt] is added to the slot of its projection; the loop reads
    [factor.cpt[assignment]] for the key it is visiting, that is [w]. *)
Definition sum_out_step (var_index : nat)
    (new_cpt : list (list string * Qc)) (entry : list string * Qc) :
    list (list string * Qc) :=
  let new_key := drop_at var_index entry.1 in
  dict_set new_cpt new_key (dict_get0 new_cpt new_key + entry.2).

Definition sum_out (factor : Factor) (variable : string) : Factor :=
  match index_of variable (variables factor) with
  | None => factor
  | Some var_index =>
      let new_vars := filter (λ v, v ≠ variable) (variables factor) in
      let new_cpt := foldl (sum_out_step var_index) [] (cpt factor) in
      mkFactor new_vars new_cpt
  end.

(** ** Iteration order of sets *)

(** [set_iter so l] is the order in which a set iterates after the elements of
    [l] were added to it in that order: each element once, in an order that
    the hash function decides. *)
Record set_order : Type := mkSetOrder {
  set_iter :> list string → list string;
  set_iter_perm : ∀ l, set_iter l ≡ₚ remove_dups l
}.

(** Two iteration orders, to evaluate examples. *)
Definition insertion_order : set_order :=
  mkSetOrder remove_dups (λ l, reflexivity (remove_dups l)).

Definition reverse_order : set_order :=
  mkSetOrder (λ l, reverse (remove_dups l)) (λ l, reverse_Permutation (remove_dups l)).

(** ** Product of two factors *)

(** [t[i]] on a tuple. *)
Definition subscript {A} (t : list A) (i : nat) : result A :=
  match t !! i with
  | Some x => Ok x
  | None => Raise IndexError
  end.

(** [d[k]] on a dict. *)
Definition dict_subscript {K V} `{EqDecision K} (d : list (K * V)) (k : K) : result V :=
  match dict_get d k with
  | Some v => Ok v
  | None => Raise KeyError
  end.

(** [enumerate(t)]. *)
Definition enumerate {A} (t : list A) : list (nat * A) := imap pair t.

(** The calls [var_domains[var].add(assignment[i])] of one of the two loops of
    [multiply_factors], in the order they are made. *)
Definition observe (factor : Factor) : result (list (string * string)) :=
  adds ← for_list (λ assignment,
            for_list (λ iv : nat * string,
                        x ← subscript assignment iv.1; Ok (iv.2, x))
                     (enumerate (variables factor)))
          (dict_keys (cpt factor));
  Ok (concat adds).

(** The values added to the set of [var]. *)
Definition added (var : string) (adds : list (string * string)) : list string :=
  (filter (λ p, p.1 = var) adds).*2.

(** [itertools.product] of a list of pools: the first pool varies slowest. *)
Fixpoint product {A} (pools : list (list A)) : list (list A) :=
  match pools with
  | [] => [[]]
  | pool :: pools' => x ← pool; (x ::.) <$> product pools'
  end.

(** [sorted(list(vars1.union(vars2)))]. *)
Definition union_vars (so : set_order) (vars1 vars2 : list string) : list string :=
  merge_sort String.le (so (so vars1 ++ so vars2)).

(** The body of the main loop of [multiply_factors]. *)
Definition multiply_step (factor1 factor2 : Factor) (new_vars : list string)
    (new_cpt : list (list string * Qc)) (assignment : list string) :
    result (list (list string * Qc)) :=
  let assignment_dict := dict_comp fst snd (zip new_vars assignment) in
  key1 ← for_list (dict_subscript assignment_dict) (variables factor1);
  key2 ← for_list (dict_subscript assignment_dict) (variables factor2);
  let prob1 := dict_get0 (cpt factor1) key1 in
  let prob2 := dict_get0 (cpt factor2) key2 in
  Ok (dict_set new_cpt assignment (prob1 * prob2)).

Definition multiply_factors (so : set_order) (factor1 factor2 : Factor) : result Factor :=
  let new_vars := union_vars so (variables factor1) (variables factor2) in
  adds1 ← observe factor1;
  adds2 ← observe factor2;
  let var_domains := λ var, so (added var (adds1 ++ adds2)) in
  let assignments := product (var_domains <$> new_vars) in
  new_cpt ← for_acc (multiply_step factor1 factor2 new_vars) [] assignments;
  Ok (mkFactor new_vars new_cpt).

(** ** The solver *)

(** The inner loop of the evidence step: [Ok false] is the [break]. *)
Fixpoint is_consistent (evidence : gmap string string)
    (vars : list (nat * string)) (assignment : list string) : result bool :=
  match vars with
  | [] => Ok true
  | (i, var) :: vars' =>
      match evidence !! var with
      | None => is_consistent evidence vars' assignment
      | Some observed =>
          x ← subscript assignment i;
          if decide (observed ≠ x) then Ok false
          else is_consistent evidence vars' assignment
      end
  end.

(** The body of the loop of the evidence step. *)
Definition reduce_step (evidence : gmap string string) (vars : list string)
    (new_cpt : list (list string * Qc)) (entry : list string * Qc) :
    result (list (list string * Qc)) :=
  ok ← is_consistent evidence (enumerate vars) entry.1;
  Ok (if ok : bool then dict_set new_cpt entry.1 entry.2 else new_cpt).

(** Step 1 of [infer] for one factor [f]. *)
Definition reduce_factor (evidence : gmap string string) (f : Factor) : result Factor :=
  new_cpt ← for_acc (reduce_step evidence (variables f)) [] (cpt f);
  Ok (mkFactor (variables f) new_cpt).

(** [p = fs[0]; for i in range(1, len(fs)): p = multiply_factors(p, fs[i])]. *)
Definition multiply_all (so : set_order) (fs : list Factor) : result Factor :=
  match fs with
  | [] => Raise IndexError
  | f0 :: fs' => for_acc (multiply_factors so) f0 fs'
  end.

(** Step 2 of [infer] for one variable of the elimination order. *)
Definition eliminate (so : set_order) (working_factors : list Factor)
    (var_to_eliminate : string) : result (list Factor) :=
  let factors_with_var :=
    filter (λ f, var_to_eliminate ∈ variables f) working_factors in
  let working_factors :=
    filter (λ f, var_to_eliminate ∉ variables f) working_factors in
  product_factor ← multiply_all so factors_with_var;
  let new_factor := sum_out product_factor var_to_eliminate in
  Ok (working_factors ++ [new_factor]).

(** The body of the comprehension that ends [infer]: the key [key[0]] is
    evaluated before the value [val / total]. *)
Definition normalize_step (total : Qc) (out : list (string * Qc))
    (entry : list string * Qc) : result (list (string * Qc)) :=
  k0 ← subscript entry.1 0;
  if decide (total = 0) then Raise ZeroDivisionError
  else Ok (dict_set out k0 (entry.2 / total)).

(** The last two lines of [infer]. *)
Definition normalize (final_factor : Factor) : result (list (string * Qc)) :=
  let total := py_sum (dict_values (cpt final_factor)) in
  for_acc (normalize_step total) [] (cpt final_factor).

(** Steps 1 to 3 of [infer]: the factor that is normalized. *)
Definition final_factor (so : set_order) (factors : list Factor)
    (evidence : gmap string string) (elimination_order : list string) : result Factor :=
  working_factors ← for_list (reduce_factor evidence) factors;
  working_factors ← for_acc (eliminate so) working_factors elimination_order;
  multiply_all so working_factors.

(** [VariableEliminationSolver(factors).infer(query_var, evidence,
    elimination_order)]; the body never reads [query_var]. *)
Definition infer (so : set_order) (factors : list Factor) (query_var : string)
    (evidence : gmap string string) (elimination_order : list string) :
    result (list (string * Qc)) :=
  final_factor so factors evidence elimination_order ≫= normalize.

(** The model of the script; [Q_of n d] is the rational [n/d]. *)
Definition Q_of (n d : Z) : Qc := Q2Qc (Qmake n (Z.to_pos d)).

Definition factor_D : Factor :=
  mkFactor ["D"] [(["Alta"], Q_of 6 10); (["Baja"], Q_of 4 10)].

Definition factor_I : Factor :=
  mkFactor ["I"] [(["Alta"], Q_of 7 10); (["Baja"], Q_of 3 10)].

Definition factor_IL : Factor :=
  mkFactor ["I"; "L"] [
    (["Alta"; "Fuerte"], Q_of 8 10); (["Alta"; "Débil"], Q_of 2 10);
    (["Baja"; "Fuerte"], Q_of 3 10); (["Baja"; "Débil"], Q_of 7 10)].

Definition factor_DIG : Factor :=
  mkFactor ["D"; "I"; "G"] [
    (["Alta"; "Alta"; "A"], Q_of 3 10); (["Alta"; "Alta"; "B"], Q_of 7 10);
    (["Alta"; "Baja"; "A"], Q_of 5 100); (["Alta"; "Baja"; "B"], Q_of 95 100);
    (["Baja"; "Alta"; "A"], Q_of 9 10); (["Baja"; "Alta"; "B"], Q_of 1 10);
    (["Baja"; "Baja"; "A"], Q_of 5 10); (["Baja"; "Baja"; "B"], Q_of 5 10)].

Definition factors : list Factor := [factor_D; factor_I; factor_IL; factor_DIG].

Definition resultado (so : set_order) : result (list (string * Qc)) :=
  infer so factors "L" {["G" := "A"]} ["D"; "I"].

(** ** Inference by enumeration (004_InterEnumeracion.py) *)

Module InterEnumeracion.

(** The keys of one entry of ['cpts']: a string (['valores'] or a value) or
    a tuple of parent values; and what such a key holds: the list of values,
    a probability, or the row of one parent configuration. *)
Inductive cpt_key : Set :=
  | KStr (s : string)
  | KTuple (t : list string).

Inductive cpt_value : Type :=
  | VList (l : list string)
  | VFloat (p : Qc)
  | VDict (d : list (string * Qc)).

Global Instance cpt_key_eq_dec : EqDecision cpt_key.
Proof. solve_decision. Defined.

Record estructura_red : Type := mkRed {
  nodos : list string;
  padres : list (string * list string);
  cpts : list (string * list (cpt_key * cpt_value))
}.

(** [x[valor]] on a value of the table: a row is a dict from values to
    floats; a list or a float has no string subscript. *)
Definition getitem_value (x : cpt_value) (valor : string) : result cpt_value :=
  match x with
  | VDict d => VFloat <$> dict_subscript d valor
  | _ => Raise TypeError
  end.

(** [for valor in x]: a list gives its items; the other values that could
    sit under ['valores'] are not iterated by a well-typed table. *)
Definition iter_value (x : cpt_value) : result (list string) :=
  match x with
  | VList l => Ok l
  | _ => Raise TypeError
  end.

(** [x * r] for a float [r]. *)
Definition mul_value (x : cpt_value) (r : Qc) : result Qc :=
  match x with
  | VFloat p => Ok (p * r)
  | _ => Raise TypeError
  end.

Section Motor.
Variable self : estructura_red.

Definition _obtener_probabilidad (variable valor : string)
    (evidencia : gmap string string) : result cpt_value :=
  padres_de_var ← dict_subscript (padres self) variable;
  match padres_de_var with
  | [] =>
      tabla ← dict_subscript (cpts self) variable;
      dict_subscript tabla (KStr valor)
  | _ =>
      configuracion_padres ←
        for_list (λ p, match evidencia !! p with
                       | Some v => Ok v
                       | None => Raise KeyError
                       end) padres_de_var;
      tabla ← dict_subscript (cpts self) variable;
      fila ← dict_subscript tabla (KTuple configuracion_padres);
      getitem_value fila valor
  end.

Fixpoint _enumerar_todo (variables : list string)
    (evidencia : gmap string string) : result Qc :=
  match variables with
  | [] => Ok 1
  | primera :: resto =>
      match evidencia !! primera with
      | Some valor =>
          prob ← _obtener_probabilidad primera valor evidencia;
          r ← _enumerar_todo resto evidencia;
          mul_value prob r
      | None =>
          tabla ← dict_subscript (cpts self) primera;
          valores ← dict_subscript tabla (KStr "valores");
          valores ← iter_value valores;
          for_acc (λ suma_ponderada valor,
                     let evidencia_extendida := <[primera := valor]> evidencia in
                     prob ← _obtener_probabilidad primera valor evidencia_extendida;
                     r ← _enumerar_todo resto evidencia_extendida;
                     t ← mul_value prob r;
                     Ok (suma_ponderada + t))
                  0 valores
      end
  end.

Definition consultar (var_consulta : string)
    (evidencia : gmap string string) : result (list (string * Qc)) :=
  tabla ← dict_subscript (cpts self) var_consulta;
  valores ← dict_subscript tabla (KStr "valores");
  valores ← iter_value valores;
  distribucion_q ←
    for_acc (λ distribucion_q valor_consulta,
               let evidencia_extendida := <[var_consulta := valor_consulta]> evidencia in
               r ← _enumerar_todo (nodos self) evidencia_extendida;
               Ok (dict_set distribucion_q valor_consulta r))
            [] valores;
  let total := py_sum (dict_values distribucion_q) in
  for_acc (λ out entry,
             if decide (total = 0) then Raise ZeroDivisionError
             else Ok (dict_set out entry.1 (entry.2 / total)))
          [] distribucion_q.
End Motor.

Definition tabla_raiz (si no : Qc) : list (cpt_key * cpt_value) :=
  [(KStr "valores", VList ["Si"; "No"]); (KStr "Si", VFloat si); (KStr "No", VFloat no)].

Definition fila (si no : Qc) : cpt_value :=
  VDict [("Si", si); ("No", no)].

Definition ESTRUCTURA_ALARMA : estructura_red := {|
  nodos := ["Robo"; "Alarma"; "JuanLlama"];
  padres := [("Robo", []); ("Alarma", ["Robo"]); ("JuanLlama", ["Alarma"])];
  cpts := [
    ("Robo", tabla_raiz (Q_of 1 1000) (Q_of 999 1000));
    ("Alarma", [(KStr "valores", VList ["Si"; "No"]);
                (KTuple ["Si"], fila (Q_of 95 100) (Q_of 5 100));
                (KTuple ["No"], fila (Q_of 1 100) (Q_of 99 100))]);
    ("JuanLlama", [(KStr "valores", VList ["Si"; "No"]);
                   (KTuple ["Si"], fila (Q_of 90 100) (Q_of 10 100));
                   (KTuple ["No"], fila (Q_of 5 100) (Q_of 95 100))])
  ]
|}.

Definition VARIABLE_CONSULTA : string := "Robo".
Definition EVIDENCIA : gmap string string := {["JuanLlama" := "Si"]}.

Definition resultado : result (list (string * Qc)) :=
  consultar ESTRUCTURA_ALARMA VARIABLE_CONSULTA EVIDENCIA.

End InterEnumeracion.

(** ** Vocabulary of the statements *)

(** The weights of the entries of [l] whose key, with component [var_index]
    dropped, is [k']. *)
Definition sharing (var_index : nat) (k' : list string)
    (l : list (list string * Qc)) : list Qc :=
  (filter (λ e, drop_at var_index e.1 = k') l).*2.

(** The invariant of a factor: every key of the table has the arity of the
    scope. *)
Definition wf_factor (f : Factor) : Prop :=
  Forall (λ k, length k = length (variables f)) (dict_keys (cpt f)).

Global Instance wf_factor_dec f : Decision (wf_factor f).
Proof. unfold wf_factor. apply _. Defined.

(** [x] is a value that the table of [f] holds for [var]. *)
Definition observed (f : Factor) (var x : string) : Prop :=
  ∃ k i, k ∈ dict_keys (cpt f) ∧ variables f !! i = Some var ∧ k !! i = Some x.

(** [key] is the assignment [a] of the scope [scope], read at the variables
    [vars]. *)
Definition projection (scope a vars key : list string) : Prop :=
  Forall2 (λ var x, ∃ i, scope !! i = Some var ∧ a !! i = Some x) vars key.

(** The pairs added by [observe], as a function of the factor. *)
Definition observations (f : Factor) : list (string * string) :=
  concat ((λ k, (λ iv : nat * string, (iv.2, default ""%string (k !! iv.1)))
                  <$> enumerate (variables f)) <$> dict_keys (cpt f)).

(** The assignment [a] of [scope] read at the variables [vars], as the loop
    of [multiply_factors] computes it. *)
Definition project (scope a vars : list string) : list string :=
  (λ var, default ""%string (dict_get (zip scope a) var)) <$> vars.

(** The iteration order of the set [var_domains[var]]. *)
Definition var_domain (so : set_order) (f1 f2 : Factor) (var : string) : list string :=
  so (added var (observations f1 ++ observations f2)).

Definition product_entry (f1 f2 : Factor) (scope a : list string) : list string * Qc :=
  (a, dict_get0 (cpt f1) (project scope a (variables f1))
      * dict_get0 (cpt f2) (project scope a (variables f2))).

Definition product_factor (so : set_order) (f1 f2 : Factor) : Factor :=
  let scope := union_vars so (variables f1) (variables f2) in
  mkFactor scope
    (product_entry f1 f2 scope <$> product (var_domain so f1 f2 <$> scope)).

(** The assignment [k] of the scope [vars] gives every observed variable its
    observed value. *)
Definition agrees (evidence : gmap string string) (vars k : list string) : Prop :=
  ∀ i var e, vars !! i = Some var → evidence !! var = Some e → k !! i = Some e.

(** The same, as a test on the positions of the scope. *)
Definition agrees_at (evidence : gmap string string) (k : list string)
    (iv : nat * string) : Prop :=
  match evidence !! iv.2 with
  | Some e => k !! iv.1 = Some e
  | None => True
  end.

Global Instance agrees_at_dec evidence k iv : Decision (agrees_at evidence k iv).
Proof. unfold agrees_at. destruct (evidence !! iv.2); apply _. Defined.

Global Instance agrees_dec evidence vars k : Decision (agrees evidence vars k).
Proof.
  refine (cast_if (decide (Forall (agrees_at evidence k) (imap pair vars))));
    rewrite Forall_forall in *; unfold agrees, agrees_at in *.
  - intros i var e Hi He.
    match goal with H : ∀ x, _ → _ |- _ => specialize (H (i, var)); simpl in H;
      rewrite He in H; apply H end.
    apply list_elem_of_lookup. exists i. by rewrite list_lookup_imap, Hi.
  - intros H.
    match goal with H' : ¬ _ |- _ => apply H' end.
    intros [i var] Hin. apply list_elem_of_lookup in Hin as [j Hj].
    rewrite list_lookup_imap in Hj. destruct (vars !! j) as [v|] eqn:Hv; simplify_eq/=.
    destruct (evidence !! var) as [e|] eqn:He; [|done]. eauto.
Defined.

(** A factor as the data model has it: a scope without repetition and keys of
    the arity of the scope. *)
Definition valid_factor (f : Factor) : Prop := NoDup (variables f) ∧ wf_factor f.

Global Instance valid_factor_dec f : Decision (valid_factor f).
Proof. unfold valid_factor. apply _. Defined.

(** The variables of a list of factors. *)
Definition all_vars (fs : list Factor) : list string := fs ≫= variables.

(** The key [key[0]] of an entry, for a key that is not the empty tuple. *)
Definition first_value (entry : list string * Qc) : string :=
  default ""%string (entry.1 !! 0%nat).

(** A model in which [D = "Baja"] has probability [0] and is listed. *)
Definition factores_cero : list Factor := [
  mkFactor ["D"; "G"] [
    (["Alta"; "A"], Q_of 1 2); (["Alta"; "B"], Q_of 1 2);
    (["Baja"; "A"], Q_of 0 1); (["Baja"; "B"], Q_of 0 1)]
].

(** *** What a factor denotes *)

(** An assignment of all variables; a variable it does not mention reads as
    the empty string. *)
Definition value_of (ρ : gmap string string) (var : string) : string :=
  default ""%string (ρ !! var).

(** The weight of [f] at the assignment [ρ]: [f.cpt.get(key, 0)] for the key
    that [ρ] gives to the scope of [f]. *)
Definition weight (f : Factor) (ρ : gmap string string) : Qc :=
  dict_get0 (cpt f) (value_of ρ <$> variables f).




(** A factor whose table is a dict: no key occurs twice. *)
Definition proper_factor (f : Factor) : Prop :=
  valid_factor f ∧ NoDup (dict_keys (cpt f)).

Global Instance proper_factor_dec f : Decision (proper_factor f).
Proof. unfold proper_factor. apply _. Defined.

(** Every value of every key of [f] is in [V]. *)
Definition values_in (V : list string) (f : Factor) : Prop :=
  ∀ k x, k ∈ dict_keys (cpt f) → x ∈ k → x ∈ V.

(** The values that occur in the tables of a list of factors. *)
Definition all_values (fs : list Factor) : list string :=
  remove_dups (fs ≫= λ f, concat (dict_keys (cpt f))).

(** * Properties *)

(** ** The result monad *)

Lemma bind_Ok {A B} (f : A → result B) (m : result A) (b : B) :
  m ≫= f = Ok b ↔ ∃ a, m = Ok a ∧ f a = Ok b.
Proof. destruct m; simpl; split; [eauto | by intros (? & [= ->] & ?) | done | by intros (? & ? & ?)]. Qed.

Lemma for_list_Ok_Forall2 {A B} (body : A → result B) (l : list A) (ys : list B) :
  for_list body l = Ok ys ↔ Forall2 (λ x y, body x = Ok y) l ys.
Proof.
  revert ys. induction l as [|x l IH]; intros ys; simpl.
  - split; [intros [= <-]; constructor | by inversion 1].
  - split.
    + intros (y & Hy & (ys' & Hys & [= <-])%bind_Ok)%bind_Ok.
      constructor; [done | by apply IH].
    + inversion 1 as [|? y ? ys' Hy Hys]; simplify_eq.
      apply IH in Hys. rewrite Hy; simpl. by rewrite Hys.
Qed.

Lemma for_list_total {A B} (body : A → result B) (l : list A) :
  Forall (λ x, ∃ y, body x = Ok y) l → ∃ ys, for_list body l = Ok ys.
Proof.
  induction 1 as [|x l [y Hy] _ [ys Hys]]; simpl; [by eexists|].
  rewrite Hy; simpl. rewrite Hys; simpl. by eexists.
Qed.

(** ** Sums *)

Lemma foldl_Qcplus (a : Qc) (l : list Qc) : foldl Qcplus a l = a + py_sum l.
Proof.
  unfold py_sum. revert a. induction l as [|x l IH]; intros a; simpl.
  - ring.
  - rewrite (IH (a + x)), (IH (0 + x)). ring.
Qed.

Lemma py_sum_nil : py_sum [] = 0.
Proof. done. Qed.

Lemma py_sum_cons (x : Qc) (l : list Qc) : py_sum (x :: l) = x + py_sum l.
Proof. unfold py_sum at 1; simpl. rewrite foldl_Qcplus. ring. Qed.

Lemma py_sum_app (l1 l2 : list Qc) : py_sum (l1 ++ l2) = py_sum l1 + py_sum l2.
Proof.
  induction l1 as [|x l1 IH]; simpl.
  - rewrite py_sum_nil. ring.
  - rewrite !py_sum_cons, IH. ring.
Qed.

Lemma py_sum_Permutation (l1 l2 : list Qc) : l1 ≡ₚ l2 → py_sum l1 = py_sum l2.
Proof.
  induction 1; rewrite ?py_sum_cons; try congruence.
  ring.
Qed.

(** ** Dictionaries *)

Section dict_lemmas.
Context {K V : Type} `{EqDecision K}.
Implicit Types (d : list (K * V)) (k : K) (v : V).

Lemma dict_get_set_eq d k v : dict_get (dict_set d k v) k = Some v.
Proof.
  induction d as [|[k' v'] d IH]; simpl.
  - by rewrite decide_True.
  - destruct (decide (k' = k)); simpl; [by rewrite decide_True|].
    by rewrite decide_False.
Qed.

Lemma dict_get_set_ne d k k' v : k ≠ k' → dict_get (dict_set d k v) k' = dict_get d k'.
Proof.
  intros Hne. induction d as [|[k0 v0] d IH]; simpl.
  - by rewrite decide_False.
  - destruct (decide (k0 = k)) as [->|]; simpl; repeat case_decide; simplify_eq; auto.
Qed.

Lemma dict_get_Some_elem d k v : dict_get d k = Some v → (k, v) ∈ d.
Proof.
  induction d as [|[k' v'] d IH]; simpl; [done|].
  destruct (decide (k' = k)) as [->|]; [intros [= ->]; left|right; auto].
Qed.

Lemma dict_get_is_Some d k : is_Some (dict_get d k) ↔ k ∈ dict_keys d.
Proof.
  unfold dict_keys. induction d as [|[k' v'] d IH]; simpl.
  - split; [by intros [? ?] | by intros ?%elem_of_nil].
  - destruct (decide (k' = k)) as [->|].
    + split; [left | eauto].
    + rewrite IH, elem_of_cons. naive_solver.
Qed.

Lemma dict_get_None d k : dict_get d k = None ↔ k ∉ dict_keys d.
Proof. rewrite <-dict_get_is_Some, eq_None_not_Some. done. Qed.

Lemma dict_get_NoDup d k v : NoDup (dict_keys d) → (k, v) ∈ d → dict_get d k = Some v.
Proof.
  unfold dict_keys. induction d as [|[k' v'] d IH]; simpl.
  - by intros _ ?%elem_of_nil.
  - intros [Hk' Hd]%NoDup_cons [[= -> ->]|Hin]%elem_of_cons.
    + by rewrite decide_True.
    + rewrite decide_False; [auto|]. intros ->. apply Hk'.
      apply list_elem_of_fmap. by exists (k, v).
Qed.

Lemma dict_keys_set d k v :
  dict_keys (dict_set d k v) =
    if decide (k ∈ dict_keys d) then dict_keys d else dict_keys d ++ [k].
Proof.
  unfold dict_keys. induction d as [|[k' v'] d IH].
  - rewrite decide_False; [done | apply not_elem_of_nil].
  - cbn [dict_set]. destruct (decide (k' = k)) as [->|Hne].
    + rewrite decide_True; [done | left].
    + rewrite !fmap_cons, IH. cbn [fst]. destruct (decide (k ∈ d.*1)).
      * rewrite decide_True; [done | by right].
      * rewrite decide_False; [done|]. rewrite elem_of_cons. naive_solver.
Qed.

Lemma dict_keys_set_elem d k k' v :
  k' ∈ dict_keys (dict_set d k v) ↔ k' = k ∨ k' ∈ dict_keys d.
Proof.
  rewrite dict_keys_set. case_decide; [naive_solver|].
  rewrite elem_of_app, list_elem_of_singleton. naive_solver.
Qed.

Lemma dict_keys_set_NoDup d k v : NoDup (dict_keys d) → NoDup (dict_keys (dict_set d k v)).
Proof.
  intros Hd. rewrite dict_keys_set. case_decide; [done|].
  apply NoDup_app. split_and!; [done| |apply NoDup_singleton].
  intros x Hx ->%list_elem_of_singleton. done.
Qed.

Lemma dict_set_fresh d k v : k ∉ dict_keys d → dict_set d k v = d ++ [(k, v)].
Proof.
  unfold dict_keys. induction d as [|[k' v'] d IH]; simpl; [done|].
  rewrite not_elem_of_cons. intros [Hne Hk].
  rewrite decide_False by done. by rewrite IH.
Qed.
End dict_lemmas.

Lemma dict_get0_set_eq {K} `{EqDecision K} (d : list (K * Qc)) k v :
  dict_get0 (dict_set d k v) k = v.
Proof. unfold dict_get0. by rewrite dict_get_set_eq. Qed.

Lemma dict_get0_set_ne {K} `{EqDecision K} (d : list (K * Qc)) k k' v :
  k ≠ k' → dict_get0 (dict_set d k v) k' = dict_get0 d k'.
Proof. intros. unfold dict_get0. by rewrite dict_get_set_ne. Qed.



(** ** Marginalization *)

Lemma index_of_None (x : string) (t : list string) : index_of x t = None ↔ x ∉ t.
Proof.
  induction t as [|y t IH]; simpl.
  - split; [intros _; apply not_elem_of_nil | done].
  - rewrite not_elem_of_cons. destruct (decide (y = x)) as [->|Hne].
    + split; [done | by intros [? _]].
    + rewrite fmap_None, IH. naive_solver.
Qed.

Lemma index_of_Some (x : string) (t : list string) (i : nat) :
  index_of x t = Some i ↔ t !! i = Some x ∧ ∀ j, (j < i)%nat → t !! j ≠ Some x.
Proof.
  revert i. induction t as [|y t IH]; intros i; simpl.
  - split; [done | by intros [? _]].
  - destruct (decide (y = x)) as [->|Hne].
    + split.
      * intros [= <-]. split; [done | lia].
      * intros [Hi Hlt]. destruct i as [|i]; [done|].
        by destruct (Hlt O); [lia|].
    + rewrite fmap_Some. split.
      * intros (i' & [Hi' Hlt]%IH & ->). split; [done|].
        intros [|j] ?; simpl; [congruence | apply Hlt; lia].
      * intros [Hi Hlt]. destruct i as [|i]; simpl in *; [congruence|].
        exists i. split; [|done]. apply IH. split; [done|].
        intros j ?. apply (Hlt (S j)). lia.
Qed.

Section sum_out_loop.
Variable var_index : nat.
Implicit Types (acc : list (list string * Qc)) (l : list (list string * Qc)).

Lemma sum_out_loop_get0 acc l k' :
  dict_get0 (foldl (sum_out_step var_index) acc l) k'
  = dict_get0 acc k' + py_sum (sharing var_index k' l).
Proof.
  unfold sharing. revert acc. induction l as [|[k w] l IH]; intros acc.
  - simpl. rewrite py_sum_nil. ring.
  - cbn [foldl]. rewrite IH. unfold sum_out_step. cbn [fst snd].
    rewrite filter_cons. cbn [fst]. destruct (decide (drop_at var_index k = k')) as [->|Hne].
    + rewrite dict_get0_set_eq, fmap_cons, py_sum_cons. cbn [snd]. ring.
    + by rewrite dict_get0_set_ne.
Qed.

Lemma sum_out_loop_keys acc l k' :
  k' ∈ dict_keys (foldl (sum_out_step var_index) acc l)
  ↔ k' ∈ dict_keys acc ∨ ∃ k, k ∈ dict_keys l ∧ drop_at var_index k = k'.
Proof.
  revert acc. induction l as [|[k w] l IH]; intros acc.
  - simpl. split; [auto|]. intros [?|(k & ?%elem_of_nil & _)]; done.
  - cbn [foldl]. rewrite IH. unfold sum_out_step. cbn [fst snd].
    rewrite dict_keys_set_elem. unfold dict_keys. rewrite fmap_cons. cbn [fst].
    setoid_rewrite elem_of_cons. naive_solver.
Qed.

Lemma sum_out_loop_NoDup acc l :
  NoDup (dict_keys acc) → NoDup (dict_keys (foldl (sum_out_step var_index) acc l)).
Proof.
  revert acc. induction l as [|[k w] l IH]; intros acc Hacc; [done|].
  cbn [foldl]. apply IH. by apply dict_keys_set_NoDup.
Qed.

End sum_out_loop.

(** C3.  [sum_out f v] is [f] itself when [v] is not a variable of [f].
    Otherwise, with [i] the first position of [v] in the scope: the new scope
    is the old one without [v], in the same order; the keys of the new table
    are the keys of [f] with component [i] dropped, each once; and such a key
    holds the sum of the weights of the entries of [f] that project to it. *)
Theorem sum_out_spec (f : Factor) (v : string) :
  (v ∉ variables f → sum_out f v = f) ∧
  (v ∈ variables f →
   ∃ i : nat,
     (variables f !! i = Some v ∧ ∀ j, (j < i)%nat → variables f !! j ≠ Some v) ∧
     variables (sum_out f v) = filter (λ x, x ≠ v) (variables f) ∧
     NoDup (dict_keys (cpt (sum_out f v))) ∧
     (∀ k', k' ∈ dict_keys (cpt (sum_out f v))
            ↔ ∃ k, k ∈ dict_keys (cpt f) ∧ drop_at i k = k') ∧
     (∀ k', k' ∈ dict_keys (cpt (sum_out f v)) →
            dict_get (cpt (sum_out f v)) k' = Some (py_sum (sharing i k' (cpt f))))).
Proof.
  split.
  - intros Hv%index_of_None. unfold sum_out. by rewrite Hv.
  - intros Hv. destruct (index_of v (variables f)) as [i|] eqn:Hi.
    2: { by apply index_of_None in Hi. }
    exists i. unfold sum_out. rewrite Hi. cbn [variables cpt].
    split; [by apply index_of_Some|]. split; [done|].
    split; [apply sum_out_loop_NoDup, NoDup_nil_2|].
    split.
    + intros k'. rewrite sum_out_loop_keys. split; [|auto].
      intros [?%elem_of_nil|?]; done.
    + intros k' [w Hw]%dict_get_is_Some. rewrite Hw. f_equal.
      pose proof (sum_out_loop_get0 i [] (cpt f) k') as Hget.
      unfold dict_get0 at 1 2 in Hget. rewrite Hw in Hget. simpl in Hget.
      rewrite Hget. ring.
Qed.


(** ** Product *)

Lemma for_list_fmap {A B} (body : A → result B) (g : A → B) (l : list A) :
  (∀ x, x ∈ l → body x = Ok (g x)) → for_list body l = Ok (g <$> l).
Proof.
  induction l as [|x l IH]; intros Hl; simpl; [done|].
  rewrite Hl by left. simpl. rewrite IH; [done|]. intros y ?. apply Hl. by right.
Qed.

Lemma elem_of_enumerate {A} (t : list A) (i : nat) (x : A) :
  (i, x) ∈ enumerate t ↔ t !! i = Some x.
Proof.
  unfold enumerate. rewrite list_elem_of_lookup. split.
  - intros (j & Hj). rewrite list_lookup_imap in Hj.
    destruct (t !! j) eqn:?; simplify_eq/=. done.
  - intros Hi. exists i. by rewrite list_lookup_imap, Hi.
Qed.

Lemma observe_Ok (f : Factor) : wf_factor f → observe f = Ok (observations f).
Proof.
  intros Hwf. unfold observe, observations.
  erewrite for_list_fmap; [done|]. intros k Hk.
  apply for_list_fmap. intros [i var] Hi%elem_of_enumerate. simpl.
  unfold wf_factor in Hwf. rewrite Forall_forall in Hwf. specialize (Hwf k Hk).
  destruct (lookup_lt_is_Some_2 k i) as [x Hx].
  { rewrite Hwf. by eapply lookup_lt_Some. }
  unfold subscript. by rewrite Hx.
Qed.

Lemma elem_of_concat {A} (x : A) (ls : list (list A)) :
  x ∈ concat ls ↔ ∃ l, x ∈ l ∧ l ∈ ls.
Proof.
  induction ls as [|l ls IH]; simpl.
  - split; [by intros ?%elem_of_nil | by intros (? & _ & ?%elem_of_nil)].
  - rewrite elem_of_app, IH. setoid_rewrite elem_of_cons. naive_solver.
Qed.

Lemma elem_of_observations (f : Factor) (var x : string) :
  wf_factor f → (var, x) ∈ observations f ↔ observed f var x.
Proof.
  intros Hwf. unfold observations, observed. rewrite elem_of_concat. split.
  - intros (l & Hvx & (k & -> & Hk)%list_elem_of_fmap).
    apply list_elem_of_fmap in Hvx as ([i var'] & [= -> ->] & Hi%elem_of_enumerate).
    simpl in *. exists k, i. split_and!; [done..|].
    unfold wf_factor in Hwf. rewrite Forall_forall in Hwf. specialize (Hwf k Hk).
    destruct (lookup_lt_is_Some_2 k i) as [x Hx].
    { rewrite Hwf. by eapply lookup_lt_Some. }
    by rewrite Hx.
  - intros (k & i & Hk & Hi & Hx). eexists. split.
    2: { apply list_elem_of_fmap. by exists k. }
    apply list_elem_of_fmap. exists (i, var). simpl. rewrite Hx.
    split; [done|]. by apply elem_of_enumerate.
Qed.

Lemma elem_of_added (var x : string) (adds : list (string * string)) :
  x ∈ added var adds ↔ (var, x) ∈ adds.
Proof.
  unfold added. rewrite list_elem_of_fmap. split.
  - intros ([var' x'] & -> & [Hv ?]%list_elem_of_filter). simpl in *. by subst.
  - intros Hin. exists (var, x). split; [done|]. by apply list_elem_of_filter.
Qed.

Lemma set_iter_elem (so : set_order) (l : list string) (x : string) :
  x ∈ so l ↔ x ∈ l.
Proof. by rewrite (set_iter_perm so l), elem_of_remove_dups. Qed.

Lemma set_iter_NoDup (so : set_order) (l : list string) : NoDup (so l).
Proof. rewrite (set_iter_perm so l). apply NoDup_remove_dups. Qed.

(** *** The sorted union of two scopes *)

Lemma union_vars_elem so (vars1 vars2 : list string) (x : string) :
  x ∈ union_vars so vars1 vars2 ↔ x ∈ vars1 ∨ x ∈ vars2.
Proof.
  unfold union_vars. rewrite merge_sort_Permutation, set_iter_elem, elem_of_app.
  by rewrite !set_iter_elem.
Qed.

Lemma union_vars_NoDup so (vars1 vars2 : list string) : NoDup (union_vars so vars1 vars2).
Proof. unfold union_vars. rewrite merge_sort_Permutation. apply set_iter_NoDup. Qed.

Lemma union_vars_sorted so (vars1 vars2 : list string) :
  StronglySorted String.le (union_vars so vars1 vars2).
Proof. apply StronglySorted_merge_sort; apply _. Qed.

(** *** [itertools.product] *)

Lemma elem_of_product {A} (pools : list (list A)) (a : list A) :
  a ∈ product pools ↔ Forall2 (λ x pool, x ∈ pool) a pools.
Proof.
  revert a. induction pools as [|pool pools IH]; intros a; simpl.
  - rewrite list_elem_of_singleton. split; [intros ->; constructor | by inversion 1].
  - rewrite list_elem_of_bind. split.
    + intros (x & (a' & -> & Ha')%list_elem_of_fmap & Hx).
      constructor; [done | by apply IH].
    + inversion 1 as [|x ? a' ? Hx Ha']; simplify_eq. exists x. split; [|done].
      apply list_elem_of_fmap. exists a'. split; [done | by apply IH].
Qed.

Lemma NoDup_product {A} (pools : list (list A)) :
  Forall NoDup pools → NoDup (product pools).
Proof.
  induction 1 as [|pool pools Hpool _ IH]; simpl; [apply NoDup_singleton|].
  apply NoDup_bind; [| |done].
  - intros x1 x2 a _ _ (? & -> & _)%list_elem_of_fmap (? & [= -> _] & _)%list_elem_of_fmap.
    done.
  - intros x _. apply NoDup_fmap_2; [|done]. by intros ?? [= ->].
Qed.

Lemma product_length {A} (pools : list (list A)) (a : list A) :
  a ∈ product pools → length a = length pools.
Proof. intros Ha%elem_of_product. by eapply Forall2_length. Qed.

(** *** Comprehensions and loops that fill a dictionary *)

Lemma foldl_dict_set_fresh {A K V} `{EqDecision K} (key : A → K) (val : A → V)
    (acc : list (K * V)) (l : list A) :
  NoDup (dict_keys acc ++ (key <$> l)) →
  foldl (λ d x, dict_set d (key x) (val x)) acc l = acc ++ ((λ x, (key x, val x)) <$> l).
Proof.
  revert acc. induction l as [|x l IH]; intros acc Hnd; simpl.
  - by rewrite app_nil_r.
  - rewrite fmap_cons in Hnd. apply NoDup_app in Hnd as (Hacc & Hdisj & [Hx Hl]%NoDup_cons).
    rewrite dict_set_fresh.
    2: { intros Hin. apply (Hdisj _ Hin). left. }
    rewrite IH; [by rewrite <-app_assoc|].
    unfold dict_keys. rewrite fmap_app. simpl. rewrite <-app_assoc. simpl.
    apply NoDup_app. split_and!; [done| |by constructor].
    intros k Hk [->|Hk']%elem_of_cons; [|by eapply Hdisj; [|right]].
    apply (Hdisj _ Hk). left.
Qed.

Lemma dict_comp_NoDup {A K V} `{EqDecision K} (key : A → K) (val : A → V) (l : list A) :
  NoDup (key <$> l) → dict_comp key val l = (λ x, (key x, val x)) <$> l.
Proof. intros Hnd. unfold dict_comp. by rewrite foldl_dict_set_fresh. Qed.

Lemma for_acc_foldl {A S} (body : S → A → result S) (step : S → A → S) (s : S) (l : list A) :
  (∀ c x, x ∈ l → body c x = Ok (step c x)) → for_acc body s l = Ok (foldl step s l).
Proof.
  revert s. induction l as [|x l IH]; intros s Hb; simpl; [done|].
  rewrite Hb by left. simpl. apply IH. intros c y ?. apply Hb. by right.
Qed.

(** *** Reading an assignment of the union scope *)

Lemma zip_fst_snd {A B} (l : list (A * B)) : (λ x, (x.1, x.2)) <$> l = l.
Proof. induction l as [|[??] l IH]; simpl; by f_equal. Qed.

Lemma dict_get_zip (scope a : list string) (var x : string) :
  NoDup scope →
  dict_get (zip scope a) var = Some x ↔ ∃ i, scope !! i = Some var ∧ a !! i = Some x.
Proof.
  intros Hnd. split.
  - intros Hget%dict_get_Some_elem. apply list_elem_of_lookup in Hget as [i Hi].
    apply lookup_zip_Some in Hi. eauto.
  - intros (i & Hv & Hx). apply dict_get_NoDup.
    + unfold dict_keys. clear -Hnd. revert a. induction Hnd as [|v scope Hv Hnd IH];
        intros [|y a]; simpl; try constructor; [|by apply IH].
      intros Hin. apply Hv.
      apply list_elem_of_fmap in Hin as ([v' y'] & -> & Hin).
      by apply elem_of_zip_l in Hin.
    + apply list_elem_of_lookup. exists i. by apply lookup_zip_Some.
Qed.

Lemma project_Ok (scope a vars : list string) :
  NoDup scope → length a = length scope → vars ⊆ scope →
  for_list (dict_subscript (dict_comp fst snd (zip scope a))) vars
  = Ok (project scope a vars).
Proof.
  intros Hnd Hlen Hsub. rewrite dict_comp_NoDup.
  2: { rewrite fst_zip by lia. done. }
  rewrite zip_fst_snd. apply for_list_fmap. intros var Hvar.
  apply Hsub, list_elem_of_lookup in Hvar as [i Hi].
  destruct (lookup_lt_is_Some_2 a i) as [x Hx].
  { rewrite Hlen. by eapply lookup_lt_Some. }
  assert (dict_get (zip scope a) var = Some x) as Hget.
  { apply dict_get_zip; eauto. }
  unfold dict_subscript. by rewrite Hget.
Qed.

Lemma project_projection (scope a vars : list string) :
  NoDup scope → length a = length scope → vars ⊆ scope →
  projection scope a vars (project scope a vars).
Proof.
  intros Hnd Hlen Hsub. unfold projection, project.
  apply Forall2_fmap_r, Forall_Forall2_diag, Forall_forall. intros var Hvar.
  apply Hsub, list_elem_of_lookup in Hvar as [i Hi].
  destruct (lookup_lt_is_Some_2 a i) as [x Hx].
  { rewrite Hlen. by eapply lookup_lt_Some. }
  assert (dict_get (zip scope a) var = Some x) as Hget.
  { apply dict_get_zip; eauto. }
  exists i. split; [done|]. by rewrite Hget.
Qed.

Lemma projection_unique (scope a vars key1 key2 : list string) :
  NoDup scope → projection scope a vars key1 → projection scope a vars key2 → key1 = key2.
Proof.
  intros Hnd. unfold projection. intros H1. revert key2.
  induction H1 as [|v x vars key1 (i & Hi & Hx) _ IH]; intros key2 H2.
  - by inversion H2.
  - inversion H2 as [|? y ? key2' (j & Hj & Hy) Hrest]; subst.
    f_equal; [|by apply IH].
    assert (i = j) as -> by (by eapply NoDup_lookup). congruence.
Qed.

(** *** The product as a function *)

Lemma var_domain_elem so (f1 f2 : Factor) (var x : string) :
  wf_factor f1 → wf_factor f2 →
  x ∈ var_domain so f1 f2 var ↔ observed f1 var x ∨ observed f2 var x.
Proof.
  intros. unfold var_domain.
  by rewrite set_iter_elem, elem_of_added, elem_of_app, !elem_of_observations.
Qed.

Lemma multiply_factors_Ok so (f1 f2 : Factor) :
  wf_factor f1 → wf_factor f2 →
  multiply_factors so f1 f2 = Ok (product_factor so f1 f2).
Proof.
  intros Hwf1 Hwf2. unfold multiply_factors, product_factor.
  rewrite !observe_Ok by done. simpl.
  set (scope := union_vars so (variables f1) (variables f2)).
  set (pools := (λ var, so (added var (observations f1 ++ observations f2))) <$> scope).
  erewrite for_acc_foldl with
    (step := λ d a, dict_set d a (product_entry f1 f2 scope a).2).
  - simpl. do 2 f_equal.
    rewrite (foldl_dict_set_fresh id (λ a, (product_entry f1 f2 scope a).2)).
    + done.
    + simpl. rewrite list_fmap_id. apply NoDup_product, Forall_fmap, Forall_forall.
      intros var _. apply set_iter_NoDup.
  - intros c a Ha%product_length. unfold pools in Ha. rewrite length_fmap in Ha.
    unfold multiply_step.
    rewrite !project_Ok; [done|apply union_vars_NoDup|done| |apply union_vars_NoDup|done|].
    + intros v ?. apply union_vars_elem. auto.
    + intros v ?. apply union_vars_elem. auto.
Qed.

Lemma product_factor_keys so (f1 f2 : Factor) :
  dict_keys (cpt (product_factor so f1 f2))
  = product (var_domain so f1 f2 <$> union_vars so (variables f1) (variables f2)).
Proof.
  unfold product_factor, dict_keys. simpl. rewrite <-list_fmap_compose.
  apply list_fmap_id.
Qed.

Lemma product_factor_keys_NoDup so (f1 f2 : Factor) :
  NoDup (dict_keys (cpt (product_factor so f1 f2))).
Proof.
  rewrite product_factor_keys. apply NoDup_product, Forall_fmap, Forall_forall.
  intros var _. apply set_iter_NoDup.
Qed.

Lemma product_factor_get so (f1 f2 : Factor) (a : list string) :
  a ∈ dict_keys (cpt (product_factor so f1 f2)) →
  dict_get (cpt (product_factor so f1 f2)) a
  = Some (product_entry f1 f2 (variables (product_factor so f1 f2)) a).2.
Proof.
  intros Ha. apply dict_get_NoDup; [apply product_factor_keys_NoDup|].
  rewrite product_factor_keys in Ha. unfold product_factor. simpl.
  apply list_elem_of_fmap. by exists a.
Qed.

Lemma product_factor_wf so (f1 f2 : Factor) : wf_factor (product_factor so f1 f2).
Proof.
  unfold wf_factor. rewrite product_factor_keys. apply Forall_forall.
  intros a Ha%product_length. by rewrite length_fmap in Ha.
Qed.

(** C2.  The product of two factors whose keys have the arity of their scopes
    is computed without an exception.  Its scope is the sorted union of the
    two scopes.  Its table has one entry for every assignment of that scope
    that gives each variable a value observed for it in one of the two
    tables, and no other entry.  The entry of an assignment is the product of
    what the two tables hold at its projections, [0] standing for an absent
    key. *)
Theorem multiply_factors_spec (so : set_order) (f1 f2 : Factor) :
  wf_factor f1 → wf_factor f2 →
  ∃ f, multiply_factors so f1 f2 = Ok f ∧
    (StronglySorted String.le (variables f) ∧ NoDup (variables f) ∧
     ∀ x, x ∈ variables f ↔ x ∈ variables f1 ∨ x ∈ variables f2) ∧
    NoDup (dict_keys (cpt f)) ∧
    (∀ a, a ∈ dict_keys (cpt f)
          ↔ Forall2 (λ x var, observed f1 var x ∨ observed f2 var x) a (variables f)) ∧
    (∀ a, a ∈ dict_keys (cpt f) →
          ∃ key1 key2,
            projection (variables f) a (variables f1) key1 ∧
            projection (variables f) a (variables f2) key2 ∧
            dict_get (cpt f) a
            = Some (dict_get0 (cpt f1) key1 * dict_get0 (cpt f2) key2)).
Proof.
  intros Hwf1 Hwf2. exists (product_factor so f1 f2).
  split; [by apply multiply_factors_Ok|].
  split; [|split; [|split]].
  - split_and!; [apply union_vars_sorted | apply union_vars_NoDup |].
    intros x. apply union_vars_elem.
  - apply product_factor_keys_NoDup.
  - intros a. rewrite product_factor_keys, elem_of_product. simpl.
    rewrite Forall2_fmap_r.
    split; intros H; eapply Forall2_impl; try exact H; simpl;
      intros x var; by apply var_domain_elem.
  - intros a Ha. rewrite product_factor_get by done.
    pose proof (product_factor_wf so f1 f2) as Hwf. unfold wf_factor in Hwf.
    rewrite Forall_forall in Hwf. specialize (Hwf a Ha). simpl in *.
    eexists _, _. split_and!; [| |done].
    + apply project_projection; [apply union_vars_NoDup|done|].
      intros v ?. apply union_vars_elem. auto.
    + apply project_projection; [apply union_vars_NoDup|done|].
      intros v ?. apply union_vars_elem. auto.
Qed.

(** ** Evidence *)

Lemma is_consistent_true evidence (l : list (nat * string)) (k : list string) :
  is_consistent evidence l k = Ok true
  ↔ ∀ i var e, (i, var) ∈ l → evidence !! var = Some e → k !! i = Some e.
Proof.
  induction l as [|[i var] l IH]; simpl.
  - split; [|done]. intros _ i var e Hin. inversion Hin.
  - destruct (evidence !! var) as [e|] eqn:He.
    + unfold subscript. destruct (k !! i) as [x|] eqn:Hx; simpl.
      * destruct (decide (e ≠ x)) as [Hne|Heq%dec_stable].
        -- split; [done|]. intros H. specialize (H i var e). destruct Hne.
           assert (Some x = Some e) by (rewrite <- Hx; apply H; [left|done]). congruence.
        -- subst x. rewrite IH. split.
           ++ intros H i' var' e' [[= -> ->]|?]%elem_of_cons ?; [congruence | eauto].
           ++ intros H i' var' e' ??. apply (H i' var' e'); [by right|done].
      * split; [done|]. intros H. specialize (H i var e).
        rewrite Hx in H. discriminate H; [left|done].
    + rewrite IH. split.
      * intros H i' var' e' [[= -> ->]|?]%elem_of_cons ?; [congruence | eauto].
      * intros H i' var' e' ??. apply (H i' var' e'); [by right|done].
Qed.

Lemma is_consistent_total evidence (l : list (nat * string)) (k : list string) :
  (∀ i var, (i, var) ∈ l → (i < length k)%nat) →
  ∃ b, is_consistent evidence l k = Ok b.
Proof.
  induction l as [|[i var] l IH]; intros Hl; simpl; [by eexists|].
  destruct IH as [b Hb]. { intros ???. eapply Hl. by right. }
  destruct (lookup_lt_is_Some_2 k i) as [x Hx]. { eapply Hl. left. }
  unfold subscript. rewrite Hx. simpl.
  destruct (evidence !! var); [|by eexists]. case_decide; by eexists.
Qed.

Lemma is_consistent_agrees evidence (vars k : list string) :
  is_consistent evidence (enumerate vars) k = Ok true ↔ agrees evidence vars k.
Proof.
  rewrite is_consistent_true. unfold agrees.
  by setoid_rewrite elem_of_enumerate.
Qed.

Lemma reduce_loop_inv evidence (vars : list string) acc l c :
  for_acc (reduce_step evidence vars) acc l = Ok c →
  NoDup (dict_keys acc) →
  (∀ k, k ∈ dict_keys acc → agrees evidence vars k) →
  NoDup (dict_keys c) ∧ (∀ k, k ∈ dict_keys c → agrees evidence vars k).
Proof.
  revert acc. induction l as [|[k w] l IH]; intros acc; simpl.
  - intros [= ->]. done.
  - intros (acc' & Hstep & Hrest)%bind_Ok Hnd Hacc.
    apply (IH acc' Hrest); unfold reduce_step in Hstep; simpl in Hstep;
      apply bind_Ok in Hstep as ([] & Hok & [= <-]); try done.
    + by apply dict_keys_set_NoDup.
    + intros k' [->|?]%dict_keys_set_elem; [|by auto].
      by apply is_consistent_agrees.
Qed.

Lemma reduce_loop_fixed evidence (vars : list string) (c : list (list string * Qc)) :
  NoDup (dict_keys c) →
  (∀ k, k ∈ dict_keys c → agrees evidence vars k) →
  for_acc (reduce_step evidence vars) [] c = Ok c.
Proof.
  intros Hnd Hc.
  rewrite for_acc_foldl with (step := λ d e, dict_set d e.1 e.2).
  - rewrite foldl_dict_set_fresh by done. simpl. by rewrite zip_fst_snd.
  - intros d [k w] Hin. unfold reduce_step. simpl.
    assert (is_consistent evidence (enumerate vars) k = Ok true) as ->; [|done].
    apply is_consistent_agrees, Hc. unfold dict_keys.
    apply list_elem_of_fmap. by exists (k, w).
Qed.

Lemma reduce_factor_unfold evidence (f : Factor) :
  reduce_factor evidence f
  = for_acc (reduce_step evidence (variables f)) [] (cpt f)
      ≫= λ new_cpt, Ok (mkFactor (variables f) new_cpt).
Proof. done. Qed.

Lemma reduce_loop_Ok evidence (vars : list string) acc (l : list (list string * Qc)) :
  Forall (λ k, length k = length vars) (dict_keys l) →
  ∃ c, for_acc (reduce_step evidence vars) acc l = Ok c.
Proof.
  unfold dict_keys. revert acc. induction l as [|[k w] l IH]; intros acc Hl.
  - by eexists.
  - rewrite fmap_cons in Hl. apply Forall_cons in Hl as [Hk Hl]. cbn [fst] in Hk.
    destruct (is_consistent_total evidence (enumerate vars) k) as [b Hb].
    { intros i var Hi%elem_of_enumerate. rewrite Hk. by eapply lookup_lt_Some. }
    cbn [for_acc].
    replace (reduce_step evidence vars acc (k, w))
      with (Ok (if b then dict_set acc k w else acc))
      by (unfold reduce_step; cbn [fst snd]; by rewrite Hb).
    by apply IH.
Qed.

Lemma reduce_factor_Ok evidence (f : Factor) :
  wf_factor f → ∃ f', reduce_factor evidence f = Ok f'.
Proof.
  intros Hwf. rewrite reduce_factor_unfold.
  destruct (reduce_loop_Ok evidence (variables f) [] (cpt f) Hwf) as [c ->].
  by eexists.
Qed.

Lemma filter_all {A} (P : A → Prop) `{∀ x, Decision (P x)} (l : list A) :
  Forall P l → filter P l = l.
Proof.
  induction 1 as [|x l Hx _ IH]; [done|].
  by rewrite filter_cons_True, IH.
Qed.

Lemma reduce_loop_filter evidence (vars : list string) acc (l : list (list string * Qc)) :
  NoDup (dict_keys acc ++ dict_keys l) →
  Forall (λ k, length k = length vars) (dict_keys l) →
  for_acc (reduce_step evidence vars) acc l
  = Ok (acc ++ filter (λ e, agrees evidence vars e.1) l).
Proof.
  unfold dict_keys. revert acc. induction l as [|[k w] l IH]; intros acc Hnd Hl.
  - simpl. by rewrite app_nil_r.
  - rewrite fmap_cons in Hnd, Hl. apply Forall_cons in Hl as [Hk Hl]. cbn [fst] in *.
    destruct (is_consistent_total evidence (enumerate vars) k) as [b Hb].
    { intros i var Hi%elem_of_enumerate. rewrite Hk. by eapply lookup_lt_Some. }
    cbn [for_acc].
    replace (reduce_step evidence vars acc (k, w))
      with (Ok (if b then dict_set acc k w else acc))
      by (unfold reduce_step; cbn [fst snd]; by rewrite Hb).
    cbn [mbind result_bind]. rewrite filter_cons. cbn [fst].
    apply NoDup_app in Hnd as (Hacc & Hdisj & [Hkl Hndl]%NoDup_cons).
    destruct b.
    + apply is_consistent_agrees in Hb. rewrite decide_True by done.
      rewrite dict_set_fresh.
      2: { intros Hin. eapply Hdisj; [exact Hin|left]. }
      rewrite IH; [by rewrite <-app_assoc|..|done].
      rewrite fmap_app, <-app_assoc. simpl. apply NoDup_app. split_and!; [done| |by constructor].
      intros x Hx [->|?]%elem_of_cons; eapply Hdisj; eauto; [left|by right].
    + rewrite decide_False.
      2: { intros Hag%is_consistent_agrees. congruence. }
      apply IH; [|done]. apply NoDup_app. split_and!; [done| |done].
      intros x Hx ?. eapply Hdisj; [exact Hx|by right].
Qed.

Lemma reduce_factor_filter evidence (f : Factor) :
  wf_factor f → NoDup (dict_keys (cpt f)) →
  reduce_factor evidence f
  = Ok (mkFactor (variables f) (filter (λ e, agrees evidence (variables f) e.1) (cpt f))).
Proof.
  intros Hwf Hnd. rewrite reduce_factor_unfold.
  by rewrite (reduce_loop_filter evidence (variables f) [] (cpt f)).
Qed.

(** C8.  The evidence step applied to its own result gives that result
    again: a second reduction by the same evidence changes nothing (and it
    fails exactly when the first one does).  On a factor whose keys have the
    arity of the scope the step does not fail; when moreover no key occurs
    twice, the step keeps exactly the entries that give every observed
    variable of the scope its observed value, and the whole table when the
    scope has no observed variable. *)
Theorem reduce_factor_idempotent (evidence : gmap string string) (f : Factor) :
  reduce_factor evidence f ≫= reduce_factor evidence = reduce_factor evidence f
  ∧ (wf_factor f → ∃ f', reduce_factor evidence f = Ok f'
                        ∧ reduce_factor evidence f' = Ok f')
  ∧ (wf_factor f → NoDup (dict_keys (cpt f)) →
     reduce_factor evidence f
     = Ok (mkFactor (variables f)
             (filter (λ e, agrees evidence (variables f) e.1) (cpt f)))
     ∧ ((∀ var, var ∈ variables f → evidence !! var = None) →
        reduce_factor evidence f = Ok f)).
Proof.
  assert (∀ f', reduce_factor evidence f = Ok f' → reduce_factor evidence f' = Ok f') as Hidem.
  { intros f'. rewrite !reduce_factor_unfold.
    intros (c & Hc & [= <-])%bind_Ok. simpl.
    apply reduce_loop_inv in Hc as [Hnd Hagree];
      [|apply NoDup_nil_2|by intros ? ?%elem_of_nil].
    by rewrite reduce_loop_fixed. }
  split; [|split].
  - destruct (reduce_factor evidence f) as [f'|e] eqn:Hf; simpl; [|done]. by apply Hidem.
  - intros [f' Hf']%(reduce_factor_Ok evidence). eauto.
  - intros Hwf Hnd. split; [by apply reduce_factor_filter|].
    intros Hnone. rewrite reduce_factor_filter by done. destruct f as [vars c]. simpl in *.
    do 2 f_equal. apply filter_all, Forall_forall. intros [k w] _ i var e Hi He.
    rewrite Hnone in He; [done|]. by eapply list_elem_of_lookup_2.
Qed.

(** ** The elimination loop *)

Lemma elem_of_all_vars (fs : list Factor) (x : string) :
  x ∈ all_vars fs ↔ ∃ f, f ∈ fs ∧ x ∈ variables f.
Proof. unfold all_vars. rewrite list_elem_of_bind. naive_solver. Qed.

Lemma Forall_filter {A} (P Q : A → Prop) `{∀ x, Decision (Q x)} (l : list A) :
  Forall P l → Forall P (filter Q l).
Proof.
  rewrite !Forall_forall. intros HP x [_ ?]%list_elem_of_filter. auto.
Qed.

Lemma sum_out_keys (f : Factor) (v : string) (i : nat) (k' : list string) :
  index_of v (variables f) = Some i →
  k' ∈ dict_keys (cpt (sum_out f v)) ↔ ∃ k, k ∈ dict_keys (cpt f) ∧ drop_at i k = k'.
Proof.
  intros Hi. unfold sum_out. rewrite Hi. cbn [cpt]. rewrite sum_out_loop_keys.
  split; [|auto]. intros [Hin|?]; [inversion Hin | done].
Qed.

Lemma sum_out_absent (f : Factor) (v : string) : v ∉ variables f → sum_out f v = f.
Proof. intros Hv%index_of_None. unfold sum_out. by rewrite Hv. Qed.

Lemma sum_out_variables (f : Factor) (v : string) :
  variables (sum_out f v) = filter (λ x, x ≠ v) (variables f).
Proof.
  unfold sum_out. destruct (index_of v (variables f)) eqn:Hi; [done|].
  apply index_of_None in Hi. symmetry. apply filter_all, Forall_forall.
  intros x Hx ->. done.
Qed.

Lemma length_drop_at {A} (i : nat) (t : list A) :
  (i < length t)%nat → length (drop_at i t) = pred (length t).
Proof. intros. unfold drop_at. rewrite length_app, length_take, length_drop. lia. Qed.

Lemma length_filter_ne (v : string) (t : list string) :
  NoDup t → v ∈ t → length (filter (λ x, x ≠ v) t) = pred (length t).
Proof.
  induction 1 as [|y t Hy Hnd IH]; [by intros ?%elem_of_nil|].
  rewrite filter_cons. intros [->|Hin]%elem_of_cons.
  - rewrite decide_False by (by intros ?). simpl.
    f_equal. apply filter_all, Forall_forall. intros x Hx ->. done.
  - rewrite decide_True by (by intros ->). simpl. rewrite IH by done.
    destruct t; [by apply elem_of_nil in Hin | done].
Qed.

Lemma sum_out_valid (f : Factor) (v : string) :
  valid_factor f → valid_factor (sum_out f v).
Proof.
  intros [Hnd Hwf]. split.
  - rewrite sum_out_variables. by apply NoDup_filter.
  - destruct (index_of v (variables f)) as [i|] eqn:Hidx.
    2: { apply index_of_None in Hidx. by rewrite sum_out_absent. }
    pose proof (proj1 (index_of_Some _ _ _) Hidx) as [Hi _].
    unfold wf_factor in *. rewrite Forall_forall in Hwf. apply Forall_forall.
    intros k' (k & Hk & <-)%(sum_out_keys f v i); [|done].
    rewrite sum_out_variables, length_filter_ne;
      [|done|by eapply list_elem_of_lookup_2].
    rewrite length_drop_at; [by rewrite Hwf|].
    rewrite Hwf by done. by eapply lookup_lt_Some.
Qed.

Lemma product_factor_valid so (f1 f2 : Factor) : valid_factor (product_factor so f1 f2).
Proof. split; [apply union_vars_NoDup | apply product_factor_wf]. Qed.

Lemma product_factor_variables so (f1 f2 : Factor) (x : string) :
  x ∈ variables (product_factor so f1 f2) ↔ x ∈ variables f1 ∨ x ∈ variables f2.
Proof. apply union_vars_elem. Qed.

(** The loop [p = multiply_factors(p, fs[i])] as a fold of [product_factor]. *)
Lemma multiply_loop_Ok so (f0 : Factor) (fs : list Factor) :
  valid_factor f0 → Forall valid_factor fs →
  for_acc (multiply_factors so) f0 fs = Ok (foldl (product_factor so) f0 fs).
Proof.
  intros H0 Hfs. revert f0 H0. induction Hfs as [|f fs Hf _ IH]; intros f0 H0; [done|].
  simpl. rewrite multiply_factors_Ok by (by apply H0 || by apply Hf). simpl.
  apply IH, product_factor_valid.
Qed.

Lemma product_fold_valid so (f0 : Factor) (fs : list Factor) :
  valid_factor f0 → valid_factor (foldl (product_factor so) f0 fs).
Proof.
  revert f0. induction fs as [|f fs IH]; intros f0 H0; [done|].
  simpl. apply IH, product_factor_valid.
Qed.

Lemma product_fold_variables so (f0 : Factor) (fs : list Factor) (x : string) :
  x ∈ variables (foldl (product_factor so) f0 fs) ↔ x ∈ all_vars (f0 :: fs).
Proof.
  revert f0. induction fs as [|f fs IH]; intros f0.
  - unfold all_vars. simpl. by rewrite app_nil_r.
  - cbn [foldl]. rewrite IH. unfold all_vars. rewrite !bind_cons, !elem_of_app.
    rewrite product_factor_variables. tauto.
Qed.

Lemma multiply_all_Ok so (fs : list Factor) :
  fs ≠ [] → Forall valid_factor fs →
  ∃ F, multiply_all so fs = Ok F ∧ valid_factor F ∧ ∀ x, x ∈ variables F ↔ x ∈ all_vars fs.
Proof.
  intros Hne Hfs. destruct fs as [|f0 fs]; [done|].
  apply Forall_cons in Hfs as [H0 Hfs]. exists (foldl (product_factor so) f0 fs).
  split; [by apply multiply_loop_Ok|]. split; [by apply product_fold_valid|].
  intros x. apply product_fold_variables.
Qed.

Lemma eliminate_Ok so (ws : list Factor) (v : string) :
  Forall valid_factor ws → v ∈ all_vars ws →
  ∃ ws', eliminate so ws v = Ok ws' ∧ Forall valid_factor ws' ∧ ws' ≠ [] ∧
         ∀ x, x ∈ all_vars ws' ↔ (x ≠ v ∧ x ∈ all_vars ws).
Proof.
  intros Hws (f & Hf & Hv)%elem_of_all_vars. unfold eliminate.
  set (with_var := filter (λ f, v ∈ variables f) ws).
  set (rest := filter (λ f, v ∉ variables f) ws).
  destruct (multiply_all_Ok so with_var) as (F & -> & HF & HFvars).
  { intros Hnil. eapply (filter_nil_not_elem_of _ _ f); done. }
  { by apply Forall_filter. }
  simpl. eexists. split; [done|]. split_and!.
  - apply Forall_app. split; [by apply Forall_filter|].
    apply Forall_singleton. by apply sum_out_valid.
  - by intros ?%app_eq_nil%proj2.
  - intros x. unfold all_vars. rewrite bind_app, bind_singleton, elem_of_app.
    rewrite sum_out_variables, list_elem_of_filter, HFvars.
    fold (all_vars rest) (all_vars with_var) (all_vars ws).
    rewrite !elem_of_all_vars. unfold rest, with_var.
    setoid_rewrite list_elem_of_filter. split.
    + intros [(g & [Hg ?] & ?)|[? (g & [Hg ?] & ?)]]; (split; [by intros ->|eauto]).
    + intros [Hx (g & ? & ?)]. destruct (decide (v ∈ variables g)); [right|left]; eauto.
Qed.

Lemma elimination_Ok so (ws : list Factor) (order : list string) :
  Forall valid_factor ws → ws ≠ [] → NoDup order → order ⊆ all_vars ws →
  ∃ ws', for_acc (eliminate so) ws order = Ok ws' ∧ Forall valid_factor ws' ∧ ws' ≠ [] ∧
         ∀ x, x ∈ all_vars ws' ↔ ((x ∉ order) ∧ x ∈ all_vars ws).
Proof.
  intros Hws Hne Hnd. revert ws Hws Hne.
  induction Hnd as [|v order Hv Hnd IH]; intros ws Hws Hne Hsub; simpl.
  - exists ws. split_and!; [done..|]. intros x. rewrite elem_of_nil. tauto.
  - destruct (eliminate_Ok so ws v Hws) as (ws1 & -> & Hws1 & Hne1 & Hvars1).
    { apply Hsub. left. }
    simpl. destruct (IH ws1 Hws1 Hne1) as (ws' & -> & Hws' & Hne' & Hvars').
    { intros x Hx. apply Hvars1. split; [by intros ->|]. apply Hsub. by right. }
    exists ws'. split_and!; [done..|]. intros x.
    rewrite Hvars', Hvars1, not_elem_of_cons. tauto.
Qed.

(** The evidence step keeps the scope and a part of the keys. *)
Lemma reduce_loop_keys evidence (vars : list string) acc l c :
  for_acc (reduce_step evidence vars) acc l = Ok c →
  dict_keys c ⊆ dict_keys acc ++ dict_keys l.
Proof.
  revert acc. induction l as [|[k w] l IH]; intros acc; simpl.
  - intros [= ->]. by rewrite app_nil_r.
  - intros (acc' & Hstep & Hrest)%bind_Ok. apply IH in Hrest.
    unfold reduce_step in Hstep. apply bind_Ok in Hstep as (b & _ & [= <-]).
    intros k' Hk'%Hrest. rewrite elem_of_app, elem_of_cons.
    apply elem_of_app in Hk' as [Hk'|?]; [|by auto].
    destruct b; [|by auto]. apply dict_keys_set_elem in Hk' as [->|?]; auto.
Qed.

Lemma reduce_factor_valid evidence (f f' : Factor) :
  reduce_factor evidence f = Ok f' → valid_factor f →
  variables f' = variables f ∧ valid_factor f'.
Proof.
  rewrite reduce_factor_unfold. intros (c & Hc & [= <-])%bind_Ok [Hnd Hwf].
  split; [done|]. split; [done|]. unfold wf_factor in *. simpl.
  apply reduce_loop_keys in Hc. simpl in Hc. rewrite Forall_forall in Hwf.
  apply Forall_forall. auto.
Qed.

Lemma reduce_all_Ok evidence (fs : list Factor) :
  Forall valid_factor fs →
  ∃ ws, for_list (reduce_factor evidence) fs = Ok ws ∧
        Forall valid_factor ws ∧ variables <$> ws = variables <$> fs.
Proof.
  induction 1 as [|f fs Hf _ (ws & Hws & Hvalid & Hvars)]; simpl; [by eexists|].
  destruct (reduce_factor_Ok evidence f) as [f' Hf']; [by apply Hf|].
  rewrite Hf', Hws. simpl. eexists. split; [done|].
  destruct (reduce_factor_valid _ _ _ Hf' Hf) as [Heq Hf'v].
  split; [by constructor|]. rewrite !fmap_cons. by rewrite Heq, Hvars.
Qed.

Lemma all_vars_fmap (fs : list Factor) : all_vars fs = concat (variables <$> fs).
Proof.
  unfold all_vars. induction fs as [|f fs IH]; [done|].
  rewrite bind_cons, fmap_cons. cbn [concat]. by rewrite IH.
Qed.

(** Steps 1 to 3 of [infer] run to the end on a model of valid factors when
    the order lists variables of the model, each at most once. *)
Lemma final_factor_Ok so (fs : list Factor) evidence (order : list string) :
  fs ≠ [] → Forall valid_factor fs → NoDup order → order ⊆ all_vars fs →
  ∃ F, final_factor so fs evidence order = Ok F ∧ valid_factor F ∧
       ∀ x, x ∈ variables F ↔ ((x ∉ order) ∧ x ∈ all_vars fs).
Proof.
  intros Hne Hfs Hnd Hsub. unfold final_factor.
  destruct (reduce_all_Ok evidence fs Hfs) as (ws & -> & Hws & Hvars). simpl.
  assert (all_vars ws = all_vars fs) as Hall by (by rewrite !all_vars_fmap, Hvars).
  destruct (elimination_Ok so ws order Hws) as (ws' & -> & Hws' & Hne' & Hvars'); [|done| |].
  { intros ->. by destruct fs. }
  { by rewrite Hall. }
  simpl. destruct (multiply_all_Ok so ws' Hne' Hws') as (F & -> & HF & HFv).
  exists F. split_and!; [done..|]. intros x. by rewrite HFv, Hvars', Hall.
Qed.

(** ** Normalization *)

Lemma normalize_unfold (F : Factor) :
  normalize F
  = for_acc (normalize_step (py_sum (dict_values (cpt F)))) [] (cpt F).
Proof. done. Qed.


Lemma normalize_zero (F : Factor) (k : list string) (w : Qc) (rest : list (list string * Qc)) :
  cpt F = (k, w) :: rest → k ≠ [] → py_sum (dict_values (cpt F)) = 0 →
  normalize F = Raise ZeroDivisionError.
Proof.
  intros HF Hk Htotal. rewrite normalize_unfold, Htotal, HF.
  destruct k as [|x k]; [done|]. cbn [for_acc]. unfold normalize_step.
  cbn [fst snd subscript lookup list_lookup mbind result_bind].
  by rewrite decide_True.
Qed.

Lemma normalize_nonzero (F : Factor) :
  py_sum (dict_values (cpt F)) ≠ 0 →
  Forall (λ k, k ≠ []) (dict_keys (cpt F)) →
  normalize F
  = Ok (dict_comp first_value (λ e, e.2 / py_sum (dict_values (cpt F))) (cpt F)).
Proof.
  intros Htotal Hkeys. rewrite normalize_unfold. unfold dict_comp.
  apply for_acc_foldl. intros c [k w] Hin. unfold normalize_step, first_value. simpl.
  rewrite Forall_forall in Hkeys. destruct k as [|x k].
  - destruct (Hkeys []); [|done]. unfold dict_keys. apply list_elem_of_fmap. by exists ([], w).
  - simpl. by rewrite decide_False.
Qed.

Lemma valid_factor_keys_nonempty (F : Factor) :
  valid_factor F → variables F ≠ [] → Forall (λ k, k ≠ []) (dict_keys (cpt F)).
Proof.
  intros [_ Hwf] Hne. eapply Forall_impl; [exact Hwf|]. simpl.
  intros k Hk ->. by destruct (variables F).
Qed.

(** [infer] returns a mapping whenever the model is made of valid factors,
    the order lists variables of the model at most once each and leaves one
    of them, and the divisor is not zero. *)
Lemma infer_Ok so (fs : list Factor) (query_var : string) evidence (order : list string) :
  fs ≠ [] → Forall valid_factor fs → NoDup order → order ⊆ all_vars fs →
  (∃ x, x ∈ all_vars fs ∧ x ∉ order) →
  (∀ F, final_factor so fs evidence order = Ok F → py_sum (dict_values (cpt F)) ≠ 0) →
  ∃ r, infer so fs query_var evidence order = Ok r.
Proof.
  intros Hne Hfs Hnd Hsub (x & Hx & Hxo) Htotal. unfold infer.
  destruct (final_factor_Ok so fs evidence order) as (F & HF & Hvalid & Hvars); [done..|].
  rewrite HF. simpl. rewrite normalize_nonzero; [by eexists|by apply Htotal|].
  apply valid_factor_keys_nonempty; [done|]. intros Hnil.
  assert (x ∈ variables F) as Hin by (by apply Hvars). rewrite Hnil in Hin.
  by apply elem_of_nil in Hin.
Qed.

(** ** The elimination order is taken as given *)

Lemma filter_none {A} (P : A → Prop) `{∀ x, Decision (P x)} (l : list A) :
  Forall (λ x, ¬ P x) l → filter P l = [].
Proof.
  induction 1 as [|x l Hx _ IH]; [done|].
  by rewrite filter_cons_False.
Qed.

Lemma eliminate_absent so (ws : list Factor) (v : string) :
  v ∉ all_vars ws → eliminate so ws v = Raise IndexError.
Proof.
  intros Hv. unfold eliminate.
  assert (filter (λ f, v ∈ variables f) ws = []) as ->; [|done].
  apply filter_none, Forall_forall. intros f Hf Hin. apply Hv, elem_of_all_vars. eauto.
Qed.

Lemma for_acc_app {A S} (body : S → A → result S) (s : S) (l1 l2 : list A) :
  for_acc body s (l1 ++ l2) = for_acc body s l1 ≫= λ s', for_acc body s' l2.
Proof.
  revert s. induction l1 as [|x l1 IH]; intros s; simpl; [done|].
  destruct (body s x); simpl; [apply IH | done].
Qed.

(** C5.  A variable of the order that no working factor mentions is not
    skipped: wherever it stands in the order, [factors_with_var[0]] raises
    [IndexError] when its turn comes and [infer] returns nothing. *)
Theorem infer_absent_variable_raises (so : set_order) (fs : list Factor)
    (query_var : string) (evidence : gmap string string)
    (before : list string) (v : string) (after : list string)
    (ws0 ws : list Factor) :
  for_list (reduce_factor evidence) fs = Ok ws0 →
  for_acc (eliminate so) ws0 before = Ok ws →
  v ∉ all_vars ws →
  infer so fs query_var evidence (before ++ v :: after) = Raise IndexError.
Proof.
  intros H0 H1 Hv. unfold infer, final_factor. rewrite H0. simpl.
  rewrite for_acc_app, H1. simpl. by rewrite eliminate_absent.
Qed.

(** C6, as the code has it.  When the divisor is zero and the final table has
    a first entry whose key is not the empty tuple, the division raises
    [ZeroDivisionError] and [infer] returns nothing. *)
Theorem infer_zero_total_raises (so : set_order) (fs : list Factor)
    (query_var : string) (evidence : gmap string string) (order : list string)
    (F : Factor) (k : list string) (w : Qc) (rest : list (list string * Qc)) :
  final_factor so fs evidence order = Ok F →
  cpt F = (k, w) :: rest → k ≠ [] →
  py_sum (dict_values (cpt F)) = 0 →
  infer so fs query_var evidence order = Raise ZeroDivisionError.
Proof.
  intros HF Hcpt Hk Htotal. unfold infer. rewrite HF. simpl.
  by eapply normalize_zero.
Qed.

(** C7, as the code has it.  The order is not checked against the model: an
    order that leaves hidden variables out is accepted.  For a model of valid
    factors, an order without repetition that names variables of the model
    other than the query variable, and a divisor that is not zero, [infer]
    returns a mapping. *)
Theorem infer_accepts_partial_order (so : set_order) (fs : list Factor)
    (query_var : string) (evidence : gmap string string) (order : list string) :
  fs ≠ [] → Forall valid_factor fs →
  NoDup order → order ⊆ all_vars fs →
  query_var ∈ all_vars fs → query_var ∉ order →
  (∀ F, final_factor so fs evidence order = Ok F → py_sum (dict_values (cpt F)) ≠ 0) →
  ∃ r, infer so fs query_var evidence order = Ok r.
Proof. intros. apply infer_Ok; eauto. Qed.

(** ** The script's query and its neighbours *)

(** C4.  The mapping that [infer] returns is keyed by the first component of
    the keys of the final factor.  In the script's own query the final scope
    is [("G", "L")]: both entries land on the key ["A"], the value of the
    evidence variable, the second overwrites the first, and the values of the
    returned mapping sum to [413/1490], not to [1].  The same happens, whatever
    the iteration order of sets, for the factor over [("D", "I", "G")] alone
    with [D] observed. *)
Theorem infer_keyed_by_first_component :
  resultado insertion_order = Ok [("A"%string, Q_of 413 1490)]
  ∧ py_sum (dict_values [("A"%string, Q_of 413 1490)]) ≠ 1
  ∧ (∀ so, infer so [factor_DIG] "G" {["D" := "Alta"]} ["I"]
           = Ok [("Alta"%string, Q_of 33 40)]).
Proof.
  split; [compute_done|]. split; [compute_done|].
  intros so. apply (bool_decide_unpack _). vm_compute. exact I.
Qed.

(** C1.  For the script's model, query and evidence, the two orders
    [["D"; "I"]] and [["I"; "D"]] return a mapping whose only key is ["A"],
    a value of [G] and not of the query variable [L].  Which of the two
    weights of [L] survives under that key depends on the order in which the
    final table was filled, hence on the iteration order of sets: with
    [insertion_order] both orders keep the same one, with [reverse_order]
    they keep different ones. *)
Theorem infer_order_dependent :
  infer insertion_order factors "L" {["G" := "A"]} ["D"; "I"]
    = Ok [("A"%string, Q_of 413 1490)]
  ∧ infer insertion_order factors "L" {["G" := "A"]} ["I"; "D"]
    = Ok [("A"%string, Q_of 413 1490)]
  ∧ infer reverse_order factors "L" {["G" := "A"]} ["D"; "I"]
    = Ok [("A"%string, Q_of 413 1490)]
  ∧ infer reverse_order factors "L" {["G" := "A"]} ["I"; "D"]
    = Ok [("A"%string, Q_of 1077 1490)]
  ∧ Q_of 413 1490 ≠ Q_of 1077 1490.
Proof. repeat split; compute_done. Qed.

(** C5 at an input: the script's query with a variable ["Z"] that no factor
    mentions put into the order. *)
Lemma infer_absent_variable_raises_witness :
  infer insertion_order factors "L" {["G" := "A"]} (["D"] ++ "Z"%string :: ["I"])
  = Raise IndexError.
Proof.
  eapply (infer_absent_variable_raises insertion_order factors "L" {["G" := "A"]}
            ["D"] "Z" ["I"]).
  - vm_compute. reflexivity.
  - vm_compute. reflexivity.
  - compute_done.
Defined.

(** C6, the claim as stated fails.  In the script's model no row has the
    grade ["C"]: with the evidence [G = "C"] the table of the factor over
    [("D", "I", "G")] is emptied, every product with it is empty, the divisor
    is [sum([]) = 0], and [infer] returns the empty mapping.  Likewise, for
    every iteration order of sets, for the factor over [("I", "L")] alone and
    the evidence [I = "Media"]. *)
Lemma infer_zero_total_returns :
  (∃ F, final_factor insertion_order factors {["G" := "C"]} ["D"; "I"] = Ok F
        ∧ py_sum (dict_values (cpt F)) = 0)
  ∧ infer insertion_order factors "L" {["G" := "C"]} ["D"; "I"] = Ok []
  ∧ (∀ so, final_factor so [factor_IL] {["I" := "Media"]} []
             = Ok (mkFactor ["I"; "L"] [])
           ∧ infer so [factor_IL] "L" {["I" := "Media"]} [] = Ok []).
Proof.
  split; [|split].
  - exists (mkFactor ["G"; "L"] []). split; compute_done.
  - compute_done.
  - intros so. split; vm_compute; reflexivity.
Qed.

Lemma infer_zero_total_raises_witness :
  infer insertion_order factores_cero "G" {["D" := "Baja"]} [] = Raise ZeroDivisionError.
Proof.
  eapply (infer_zero_total_raises insertion_order factores_cero "G" {["D" := "Baja"]} []).
  - vm_compute. reflexivity.
  - vm_compute. reflexivity.
  - done.
  - compute_done.
Defined.

(** C7, the claim as stated fails.  The script's query with the order
    [["D"]], which leaves the hidden variable [I] out, is not rejected:
    [infer] returns a mapping.  Likewise, for every iteration order of sets,
    for the factor over [("D", "I", "G")] alone, the query variable [G] and
    the order [["D"]]: the mapping returned is keyed by the values of [I]. *)
Lemma infer_incomplete_order_returns :
  infer insertion_order factors "L" {["G" := "A"]} ["D"]
    = Ok [("A"%string, Q_of 161 1490)]
  ∧ (∀ so, infer so [factor_DIG] "G" ∅ ["D"]
           = Ok [("Alta"%string, Q_of 1 5); ("Baja"%string, Q_of 29 80)]).
Proof.
  split; [compute_done|].
  intros so. apply (bool_decide_unpack _). vm_compute. exact I.
Qed.

Lemma result_check {A} (m : result A) (P : A → Prop) `{∀ a, Decision (P a)} :
  match m with Ok a => bool_decide (P a) | Raise _ => true end = true →
  ∀ a, m = Ok a → P a.
Proof. intros Hm a ->. by apply bool_decide_eq_true in Hm. Qed.

Lemma infer_accepts_partial_order_witness :
  ∃ r, infer insertion_order factors "L" {["G" := "A"]} ["D"] = Ok r.
Proof.
  apply (infer_accepts_partial_order insertion_order factors "L" {["G" := "A"]} ["D"]).
  - done.
  - compute_done.
  - compute_done.
  - compute_done.
  - compute_done.
  - compute_done.
  - apply (result_check _ (λ F, py_sum (dict_values (cpt F)) ≠ 0)).
    vm_compute. reflexivity.
Defined.

(** ** The alarm network by enumeration *)

(** C9, the claim as stated fails: the value returned for ["Si"] is below
    [0.015], more than [0.002] away from [0.0174]. *)
Lemma alarma_posterior_not_0_0174 :
  ∃ r p, InterEnumeracion.resultado = Ok r ∧ dict_get r "Si"%string = Some p
         ∧ p < Q_of 15 1000
         ∧ ¬ (Q_of 174 10000 - Q_of 2 1000 ≤ p ≤ Q_of 174 10000 + Q_of 2 1000).
Proof.
  exists [("Si"%string, Q_of 1715 118598); ("No"%string, Q_of 116883 118598)],
         (Q_of 1715 118598).
  split; [compute_done|]. split; [compute_done|]. split; [compute_done|].
  intros [H _]. revert H. compute_done.
Qed.

(** C9, as the code has it.  The query [P(Robo | JuanLlama = "Si")] on
    [ESTRUCTURA_ALARMA] returns [1715/118598] for ["Si"] and [116883/118598]
    for ["No"]: the posterior that the tables give, [0.01446] to five
    decimals. *)
Theorem alarma_posterior :
  InterEnumeracion.consultar InterEnumeracion.ESTRUCTURA_ALARMA "Robo"
    {["JuanLlama" := "Si"]}
  = Ok [("Si"%string, Q_of 1715 118598); ("No"%string, Q_of 116883 118598)]
  ∧ Q_of 1715 118598
    = (Q_of 1 1000 * (Q_of 95 100 * Q_of 90 100 + Q_of 5 100 * Q_of 5 100))
      / (Q_of 1 1000 * (Q_of 95 100 * Q_of 90 100 + Q_of 5 100 * Q_of 5 100)
         + Q_of 999 1000 * (Q_of 1 100 * Q_of 90 100 + Q_of 99 100 * Q_of 5 100))
  ∧ Q_of 1446 100000 < Q_of 1715 118598 < Q_of 1447 100000.
Proof. repeat split; compute_done. Qed.

(** ** The theorems at inputs of the script *)

Lemma multiply_factors_spec_witness :
  wf_factor factor_I ∧ wf_factor factor_IL ∧
  ∃ f, multiply_factors insertion_order factor_I factor_IL = Ok f ∧
    (StronglySorted String.le (variables f) ∧ NoDup (variables f) ∧
     ∀ x, x ∈ variables f ↔ x ∈ variables factor_I ∨ x ∈ variables factor_IL) ∧
    NoDup (dict_keys (cpt f)) ∧
    (∀ a, a ∈ dict_keys (cpt f)
          ↔ Forall2 (λ x var, observed factor_I var x ∨ observed factor_IL var x)
              a (variables f)) ∧
    (∀ a, a ∈ dict_keys (cpt f) →
          ∃ key1 key2,
            projection (variables f) a (variables factor_I) key1 ∧
            projection (variables f) a (variables factor_IL) key2 ∧
            dict_get (cpt f) a
            = Some (dict_get0 (cpt factor_I) key1 * dict_get0 (cpt factor_IL) key2)).
Proof.
  split; [compute_done|]. split; [compute_done|].
  apply (multiply_factors_spec insertion_order factor_I factor_IL); compute_done.
Defined.

Lemma sum_out_spec_witness :
  sum_out factor_IL "D" = factor_IL ∧
  ∃ i : nat,
    (variables factor_IL !! i = Some "I"%string
     ∧ ∀ j, (j < i)%nat → variables factor_IL !! j ≠ Some "I"%string) ∧
    variables (sum_out factor_IL "I") = filter (λ x, x ≠ "I"%string) (variables factor_IL) ∧
    NoDup (dict_keys (cpt (sum_out factor_IL "I"))) ∧
    (∀ k', k' ∈ dict_keys (cpt (sum_out factor_IL "I"))
           ↔ ∃ k, k ∈ dict_keys (cpt factor_IL) ∧ drop_at i k = k') ∧
    (∀ k', k' ∈ dict_keys (cpt (sum_out factor_IL "I")) →
           dict_get (cpt (sum_out factor_IL "I")) k'
           = Some (py_sum (sharing i k' (cpt factor_IL)))).
Proof.
  split.
  - apply (proj1 (sum_out_spec factor_IL "D")). compute_done.
  - apply (proj2 (sum_out_spec factor_IL "I")). compute_done.
Defined.


Lemma reduce_factor_idempotent_witness :
  ∃ f', reduce_factor {["G" := "A"]} factor_DIG = Ok f'
        ∧ reduce_factor {["G" := "A"]} f' = Ok f'.
Proof.
  apply (proj1 (proj2 (reduce_factor_idempotent {["G" := "A"]} factor_DIG))). compute_done.
Defined.

(** ** What the operations do to the weights *)




Lemma project_env (scope vars : list string) (ρ : gmap string string) :
  NoDup scope → vars ⊆ scope →
  project scope (value_of ρ <$> scope) vars = value_of ρ <$> vars.
Proof.
  intros Hnd Hsub. unfold project. apply list_fmap_ext. intros j var Hj.
  apply list_elem_of_lookup_2, Hsub, list_elem_of_lookup in Hj as [i Hi].
  assert (dict_get (zip scope (value_of ρ <$> scope)) var = Some (value_of ρ var)) as ->; [|done].
  apply dict_get_zip; [done|]. exists i. split; [done|].
  by rewrite list_lookup_fmap, Hi.
Qed.

(** The product denotes the pointwise product. *)
Lemma weight_product so (f1 f2 : Factor) (ρ : gmap string string) :
  wf_factor f1 → wf_factor f2 →
  weight (product_factor so f1 f2) ρ = weight f1 ρ * weight f2 ρ.
Proof.
  intros Hwf1 Hwf2. unfold weight at 1.
  set (P := product_factor so f1 f2). set (a := value_of ρ <$> variables P).
  assert (variables f1 ⊆ variables P) as Hsub1.
  { intros v ?. apply product_factor_variables. auto. }
  assert (variables f2 ⊆ variables P) as Hsub2.
  { intros v ?. apply product_factor_variables. auto. }
  assert (NoDup (variables P)) as Hnd by apply union_vars_NoDup.
  destruct (decide (a ∈ dict_keys (cpt P))) as [Hin|Hnin].
  - unfold dict_get0. subst a P. rewrite product_factor_get by done.
    unfold product_entry. cbn [snd default]. by rewrite !project_env.
  - unfold dict_get0. rewrite (proj2 (dict_get_None _ _) Hnin). simpl.
    unfold P in Hnin. rewrite product_factor_keys, elem_of_product in Hnin.
    change (union_vars so (variables f1) (variables f2)) with (variables P) in Hnin.
    unfold a in Hnin. rewrite Forall2_fmap_l, Forall2_fmap_r in Hnin.
    assert (¬ Forall (λ var, value_of ρ var ∈ var_domain so f1 f2 var) (variables P))
      as Hnin'.
    { intros HF. apply Hnin. by apply Forall_Forall2_diag. }
    clear Hnin. rename Hnin' into Hnin.
    apply not_Forall_Exists in Hnin; [|apply _].
    apply Exists_exists in Hnin as (var & Hvar & Hnot). simpl in Hnot.
    assert (∀ f, wf_factor f → var ∈ variables f → observed f var (value_of ρ var)
                 ∨ weight f ρ = 0) as Hcase.
    { intros f Hwf Hv. unfold weight, dict_get0.
      destruct (dict_get (cpt f) (value_of ρ <$> variables f)) as [w|] eqn:Hget; [left|by right].
      apply list_elem_of_lookup in Hv as [i Hi].
      exists (value_of ρ <$> variables f), i. split_and!; [|done|by rewrite list_lookup_fmap, Hi].
      apply dict_get_is_Some. eauto. }
    apply product_factor_variables in Hvar as [Hv|Hv].
    + destruct (Hcase f1 Hwf1 Hv) as [Hobs| ->]; [|ring].
      destruct Hnot. apply var_domain_elem; auto.
    + destruct (Hcase f2 Hwf2 Hv) as [Hobs| ->]; [|ring].
      destruct Hnot. apply var_domain_elem; auto.
Qed.

(** *** Dropping and replacing one component of a key *)






(** *** Sums over a dict, by keys *)









(** *** Invariants of the working list *)

Lemma sum_out_proper (f : Factor) (v : string) : proper_factor f → proper_factor (sum_out f v).
Proof.
  intros [Hvalid Hkeys]. split; [by apply sum_out_valid|].
  unfold sum_out. destruct (index_of v (variables f)); [|done].
  cbn [cpt]. apply sum_out_loop_NoDup, NoDup_nil_2.
Qed.

Lemma product_factor_proper so (f1 f2 : Factor) : proper_factor (product_factor so f1 f2).
Proof. split; [apply product_factor_valid | apply product_factor_keys_NoDup]. Qed.







(** *** The joint weight of the working list *)











(** *** The evidence step and the weights *)

Lemma dict_get_filter {K} `{EqDecision K} (P : K → Prop) `{∀ k, Decision (P k)}
    (d : list (K * Qc)) (k : K) :
  dict_get (filter (λ e, P e.1) d) k = if decide (P k) then dict_get d k else None.
Proof.
  induction d as [|[k' w] d IH].
  - rewrite filter_nil. cbn [dict_get]. by destruct (decide (P k)).
  - rewrite filter_cons. cbn [fst]. destruct (decide (P k')) as [HP|HP].
    + cbn [dict_get]. destruct (decide (k' = k)) as [->|Hne].
      * by destruct (decide (P k)).
      * exact IH.
    + rewrite IH. cbn [dict_get]. destruct (decide (k' = k)) as [->|Hne].
      * by destruct (decide (P k)).
      * done.
Qed.

Lemma weight_reduce evidence (f f' : Factor) (ρ : gmap string string) :
  wf_factor f → NoDup (dict_keys (cpt f)) → reduce_factor evidence f = Ok f' →
  weight f' ρ
  = if decide (agrees evidence (variables f) (value_of ρ <$> variables f))
    then weight f ρ else 0.
Proof.
  intros Hwf Hnd. rewrite reduce_factor_filter by done. intros [= <-].
  unfold weight, dict_get0. cbn [variables cpt].
  rewrite (dict_get_filter (λ k, agrees evidence (variables f) k)).
  by case_decide.
Qed.

Lemma reduce_factor_proper evidence (V : list string) (f f' : Factor) :
  reduce_factor evidence f = Ok f' → proper_factor f → values_in V f →
  proper_factor f' ∧ values_in V f' ∧ variables f' = variables f.
Proof.
  intros Hred [Hvalid Hkeys] HV.
  destruct (reduce_factor_valid _ _ _ Hred Hvalid) as [Hvars Hvalid'].
  rewrite reduce_factor_unfold in Hred. apply bind_Ok in Hred as (c & Hc & [= <-]).
  split_and!; [split; [done|]| |done].
  - apply reduce_loop_inv in Hc as [? _]; [done|apply NoDup_nil_2|].
    by intros ? ?%elem_of_nil.
  - apply reduce_loop_keys in Hc. intros k x Hk Hx. eapply HV; [|done].
    by apply Hc in Hk.
Qed.


Lemma all_values_in (fs : list Factor) : Forall (values_in (all_values fs)) fs.
Proof.
  apply Forall_forall. intros f Hf k x Hk Hx. unfold all_values.
  apply elem_of_remove_dups, list_elem_of_bind. exists f. split; [|done].
  apply elem_of_concat. eauto.
Qed.


(** *** Normalization of a factor over one variable *)







(** ** Inference over a final scope that holds the query variable alone *)


(** A successful run of the loop went through an order without repetition
    made of variables of the working list. *)
Lemma elimination_Ok_inv so (ws ws' : list Factor) (order : list string) :
  Forall valid_factor ws → for_acc (eliminate so) ws order = Ok ws' →
  NoDup order ∧ order ⊆ all_vars ws.
Proof.
  revert ws. induction order as [|v order IH]; intros ws Hws; simpl.
  - intros _. split; [constructor|]. by intros x ?%elem_of_nil.
  - intros (ws1 & Hstep & Hrest)%bind_Ok.
    destruct (decide (v ∈ all_vars ws)) as [Hv|Hv].
    2: { by rewrite eliminate_absent in Hstep. }
    destruct (eliminate_Ok so ws v Hws Hv) as (ws1' & Hws1' & Hvalid1 & _ & Hvars1).
    rewrite Hstep in Hws1'. injection Hws1' as <-.
    destruct (IH ws1 Hvalid1 Hrest) as [Hnd Hsub]. split.
    + constructor; [|done]. intros Hin. by apply Hsub, Hvars1 in Hin as [? _].
    + intros x [->|Hx]%elem_of_cons; [done|]. by apply Hsub, Hvars1 in Hx as [_ ?].
Qed.








(** ** How the operations compose *)

(** X3.  The product of two factors denotes the pointwise product: at every
    assignment of the variables, also one that gives a variable a value the
    tables never mention, the weight of the product is the product of the
    weights. *)
Theorem multiply_factors_weight (so : set_order) (f1 f2 : Factor) :
  wf_factor f1 → wf_factor f2 →
  ∃ f, multiply_factors so f1 f2 = Ok f ∧
       ∀ ρ, weight f ρ = weight f1 ρ * weight f2 ρ.
Proof.
  intros Hwf1 Hwf2. exists (product_factor so f1 f2).
  split; [by apply multiply_factors_Ok|]. intros ρ. by apply weight_product.
Qed.

Lemma multiply_factors_weight_witness :
  ∃ f, multiply_factors insertion_order factor_I factor_IL = Ok f ∧
       ∀ ρ, weight f ρ = weight factor_I ρ * weight factor_IL ρ.
Proof.
  apply (multiply_factors_weight insertion_order factor_I factor_IL); compute_done.
Defined.

Lemma union_vars_comm so (vars1 vars2 : list string) :
  union_vars so vars1 vars2 = union_vars so vars2 vars1.
Proof.
  apply (StronglySorted_unique String.le); try apply union_vars_sorted.
  apply NoDup_Permutation; try apply union_vars_NoDup.
  intros x. rewrite !union_vars_elem. tauto.
Qed.


(** X4.  The product is commutative as a table: the two products have the
    same scope, the same keys, and the same weight at every key. *)
Theorem multiply_factors_comm (so : set_order) (f1 f2 : Factor) :
  wf_factor f1 → wf_factor f2 →
  ∃ f12 f21, multiply_factors so f1 f2 = Ok f12 ∧ multiply_factors so f2 f1 = Ok f21 ∧
    variables f12 = variables f21 ∧
    ∀ a, dict_get (cpt f12) a = dict_get (cpt f21) a.
Proof.
  intros Hwf1 Hwf2. exists (product_factor so f1 f2), (product_factor so f2 f1).
  split_and!; [by apply multiply_factors_Ok..|apply union_vars_comm|].
  intros a.
  assert (a ∈ dict_keys (cpt (product_factor so f1 f2))
          ↔ a ∈ dict_keys (cpt (product_factor so f2 f1))) as Hkeys.
  { rewrite !product_factor_keys, !elem_of_product, (union_vars_comm so (variables f2)).
    rewrite !Forall2_fmap_r.
    split; intros H; eapply Forall2_impl; try exact H; simpl; intros x var;
      rewrite !var_domain_elem by done; tauto. }
  destruct (decide (a ∈ dict_keys (cpt (product_factor so f1 f2)))) as [Hin|Hnin].
  - rewrite !product_factor_get by (done || by apply Hkeys).
    unfold product_entry. cbn [snd variables product_factor].
    rewrite (union_vars_comm so (variables f2)). f_equal. ring.
  - rewrite (proj2 (dict_get_None _ _) Hnin). symmetry. apply dict_get_None.
    by rewrite <-Hkeys.
Qed.

Lemma multiply_factors_comm_witness :
  ∃ f12 f21, multiply_factors insertion_order factor_I factor_IL = Ok f12 ∧
    multiply_factors insertion_order factor_IL factor_I = Ok f21 ∧
    variables f12 = variables f21 ∧
    ∀ a, dict_get (cpt f12) a = dict_get (cpt f21) a.
Proof.
  apply (multiply_factors_comm insertion_order factor_I factor_IL); compute_done.
Defined.









(** ** Edge cases of the solver *)

Lemma final_factor_empty_model so evidence (order : list string) :
  final_factor so [] evidence order = Raise IndexError.
Proof. unfold final_factor. by destruct order. Qed.

(** X8.  With an empty list of factors [infer] raises [IndexError], whatever
    the query, the evidence and the order: [factors_with_var[0]] for the
    first variable of the order, [working_factors[0]] when the order is
    empty. *)
Theorem infer_empty_model (so : set_order) (query_var : string)
    (evidence : gmap string string) (order : list string) :
  infer so [] query_var evidence order = Raise IndexError.
Proof. unfold infer. by rewrite final_factor_empty_model. Qed.

Lemma final_factor_scope so (fs : list Factor) evidence (order : list string) (F : Factor) :
  Forall valid_factor fs → final_factor so fs evidence order = Ok F →
  valid_factor F ∧ NoDup order ∧ order ⊆ all_vars fs ∧
  ∀ x, x ∈ variables F ↔ ((x ∉ order) ∧ x ∈ all_vars fs).
Proof.
  intros Hfs HF. pose proof HF as HF'. unfold final_factor in HF'.
  apply bind_Ok in HF' as (ws0 & Hred & (ws' & Helim & Hmul)%bind_Ok).
  destruct (reduce_all_Ok evidence fs Hfs) as (ws0' & Hred' & Hvalid0 & Hvars0).
  rewrite Hred in Hred'. injection Hred' as <-.
  destruct (elimination_Ok_inv so ws0 ws' order Hvalid0 Helim) as [Hnd Hsub].
  assert (all_vars ws0 = all_vars fs) as Hall by (by rewrite !all_vars_fmap, Hvars0).
  rewrite Hall in Hsub.
  assert (fs ≠ []) as Hne.
  { intros ->. by rewrite final_factor_empty_model in HF. }
  destruct (final_factor_Ok so fs evidence order Hne Hfs Hnd Hsub) as (F' & HF'' & ? & ?).
  rewrite HF in HF''. injection HF'' as <-. done.
Qed.

(** X9.  The scope of the final factor.  When steps 1 to 3 of [infer] run to
    the end on a model of valid factors, the order had no repetition and
    named variables of the model only, and the final factor is valid and has
    in its scope exactly the variables of the model that the order does not
    list -- the observed ones included. *)
Theorem final_factor_variables (so : set_order) (fs : list Factor)
    (evidence : gmap string string) (order : list string) (F : Factor) :
  Forall valid_factor fs → final_factor so fs evidence order = Ok F →
  valid_factor F ∧ NoDup order ∧ order ⊆ all_vars fs ∧
  ∀ x, x ∈ variables F ↔ ((x ∉ order) ∧ x ∈ all_vars fs).
Proof. apply final_factor_scope. Qed.

Lemma final_factor_variables_witness :
  valid_factor (mkFactor ["G"; "L"]
                  [(["A"; "Fuerte"], Q_of 3231 10000); (["A"; "Débil"], Q_of 1239 10000)])
  ∧ NoDup ["D"; "I"] ∧ ["D"; "I"] ⊆ all_vars factors ∧
  ∀ x, x ∈ ["G"; "L"] ↔ ((x ∉ ["D"; "I"]) ∧ x ∈ all_vars factors).
Proof.
  apply (final_factor_variables insertion_order factors {["G" := "A"]} ["D"; "I"]
           (mkFactor ["G"; "L"]
              [(["A"; "Fuerte"], Q_of 3231 10000); (["A"; "Débil"], Q_of 1239 10000)]));
    compute_done.
Defined.

(** X10.  An order that lists every variable of the model, the query
    variable included, leaves a final factor with the empty scope; its keys
    are the empty tuple, and when its table is not empty [key[0]] raises
    [IndexError]. *)
Theorem infer_query_eliminated (so : set_order) (fs : list Factor) (query_var : string)
    (evidence : gmap string string) (order : list string) (F : Factor) :
  Forall valid_factor fs → all_vars fs ⊆ order →
  final_factor so fs evidence order = Ok F → cpt F ≠ [] →
  infer so fs query_var evidence order = Raise IndexError.
Proof.
  intros Hfs Hall HF Hne.
  destruct (final_factor_scope so fs evidence order F Hfs HF) as ([_ Hwf] & _ & _ & Hvars).
  assert (variables F = []) as Hscope.
  { destruct (variables F) as [|x l] eqn:Hv; [done|].
    assert (x ∈ x :: l) as Hx by left. apply Hvars in Hx as [Hx Hin]. by apply Hall in Hin. }
  unfold infer. rewrite HF. cbn [mbind result_bind]. rewrite normalize_unfold.
  destruct (cpt F) as [|[k w] rest] eqn:Hcpt; [done|].
  unfold wf_factor in Hwf. rewrite Hcpt, Hscope in Hwf.
  apply Forall_cons in Hwf as [Hk _]. simpl in Hk. destruct k; [|done].
  done.
Qed.

Lemma infer_query_eliminated_witness :
  infer insertion_order factors "L" {["G" := "A"]} ["D"; "I"; "G"; "L"] = Raise IndexError.
Proof.
  apply (infer_query_eliminated insertion_order factors "L" {["G" := "A"]}
           ["D"; "I"; "G"; "L"] (mkFactor [] [([], Q_of 447 1000)])).
  - compute_done.
  - intros x. revert x. apply Forall_forall. compute_done.
  - compute_done.
  - done.
Defined.

(** X11.  One round of the elimination loop.  On a working list of valid
    factors, for a variable [v] that some factor mentions, the round
    succeeds; the new list is the factors that do not mention [v], in their
    order, followed by one new factor; all its factors are valid; and its
    variables are those of the old list without [v]. *)
Theorem eliminate_spec (so : set_order) (ws : list Factor) (v : string) :
  Forall valid_factor ws → v ∈ all_vars ws →
  ∃ new_factor,
    eliminate so ws v = Ok (filter (λ f, v ∉ variables f) ws ++ [new_factor]) ∧
    valid_factor new_factor ∧ (v ∉ variables new_factor) ∧
    ∀ x, x ∈ all_vars (filter (λ f, v ∉ variables f) ws ++ [new_factor])
         ↔ (x ≠ v ∧ x ∈ all_vars ws).
Proof.
  intros Hws Hv.
  destruct (eliminate_Ok so ws v Hws Hv) as (ws' & Helim & Hvalid & _ & Hvars).
  pose proof Helim as Helim'. unfold eliminate in Helim'.
  apply bind_Ok in Helim' as (P & HP & [= <-]).
  exists (sum_out P v). split_and!; [done| | |done].
  - apply Forall_app in Hvalid as [_ Hnew]. by apply Forall_inv in Hnew.
  - rewrite sum_out_variables. by intros [? _]%list_elem_of_filter.
Qed.

Lemma eliminate_spec_witness :
  ∃ new_factor,
    eliminate insertion_order factors "D"
    = Ok (filter (λ f, "D"%string ∉ variables f) factors ++ [new_factor]) ∧
    valid_factor new_factor ∧ ("D"%string ∉ variables new_factor) ∧
    ∀ x, x ∈ all_vars (filter (λ f, "D"%string ∉ variables f) factors ++ [new_factor])
         ↔ (x ≠ "D"%string ∧ x ∈ all_vars factors).
Proof. apply (eliminate_spec insertion_order factors "D"); compute_done. Defined.



(** ** Keys that are too short *)

Lemma for_list_only {A B} (body : A → result B) (e : error) (l : list A) :
  (∀ x, x ∈ l → body x = Raise e ∨ ∃ y, body x = Ok y) →
  for_list body l = Raise e ∨ ∃ ys, for_list body l = Ok ys.
Proof.
  induction l as [|x l IH]; intros Hl; simpl; [right; by eexists|].
  destruct (Hl x) as [->|[y ->]]; [left|by left|]. simpl.
  destruct IH as [->|[ys ->]]; [|by left|right; by eexists].
  intros z ?. apply Hl. by right.
Qed.

Lemma for_list_raise {A B} (body : A → result B) (e : error) (l : list A) (x : A) :
  (∀ x, x ∈ l → body x = Raise e ∨ ∃ y, body x = Ok y) →
  x ∈ l → body x = Raise e → for_list body l = Raise e.
Proof.
  intros Hl Hx Hraise.
  destruct (for_list_only body e l Hl) as [?|[ys Hys]]; [done|].
  apply for_list_Ok_Forall2 in Hys. apply list_elem_of_lookup in Hx as [i Hi].
  destruct (Forall2_lookup_l _ _ _ _ _ Hys Hi) as (y & _ & Hy). congruence.
Qed.

Lemma observe_only (f : Factor) :
  observe f = Raise IndexError ∨ ∃ adds, observe f = Ok adds.
Proof.
  unfold observe.
  destruct (for_list_only
              (λ assignment, for_list (λ iv : nat * string,
                                         x ← subscript assignment iv.1; Ok (iv.2, x))
                                      (enumerate (variables f)))
              IndexError (dict_keys (cpt f))) as [->|[ys ->]]; [|by left|right; by eexists].
  intros k _. apply for_list_only. intros [i var] _. unfold subscript. simpl.
  destruct (k !! i); [right; by eexists|by left].
Qed.

Lemma observe_short_key (f : Factor) (k : list string) :
  k ∈ dict_keys (cpt f) → (length k < length (variables f))%nat →
  observe f = Raise IndexError.
Proof.
  intros Hk Hlen. unfold observe.
  rewrite (for_list_raise _ IndexError (dict_keys (cpt f)) k); [done| |done|].
  - intros k' _. apply for_list_only. intros [i var] _. unfold subscript. simpl.
    destruct (k' !! i); [right; by eexists|by left].
  - destruct (lookup_lt_is_Some_2 (variables f) (length k) Hlen) as [var Hvar].
    apply (for_list_raise _ IndexError _ (length k, var)).
    + intros [i var'] _. unfold subscript. simpl.
      destruct (k !! i); [right; by eexists|by left].
    + by apply elem_of_enumerate.
    + unfold subscript. simpl. by rewrite lookup_ge_None_2.
Qed.

(** X13.  A key shorter than the scope, in either table, makes
    [multiply_factors] raise [IndexError] at [assignment[i]]; no factor is
    returned. *)
Theorem multiply_factors_short_key (so : set_order) (f1 f2 : Factor) (k : list string) :
  (k ∈ dict_keys (cpt f1) ∧ (length k < length (variables f1))%nat)
  ∨ (k ∈ dict_keys (cpt f2) ∧ (length k < length (variables f2))%nat) →
  multiply_factors so f1 f2 = Raise IndexError.
Proof.
  intros Hshort. unfold multiply_factors.
  destruct (observe_only f1) as [->|[adds1 Hadds1]]; [done|].
  destruct Hshort as [[Hk Hlen]|[Hk Hlen]].
  - by rewrite (observe_short_key f1 k) in Hadds1.
  - rewrite Hadds1. cbn [mbind result_bind]. by rewrite (observe_short_key f2 k).
Qed.

Lemma multiply_factors_short_key_witness :
  multiply_factors insertion_order factor_D (mkFactor ["I"; "L"] [(["Alta"], Q_of 1 1)])
  = Raise IndexError.
Proof.
  apply (multiply_factors_short_key insertion_order factor_D
           (mkFactor ["I"; "L"] [(["Alta"], Q_of 1 1)]) ["Alta"]).
  right. split; [compute_done|]. simpl. lia.
Defined.

(** ** Inference by enumeration *)

Lemma for_acc_ext {A S} (body body' : S → A → result S) (s : S) (l : list A) :
  (∀ s x, body s x = body' s x) → for_acc body s l = for_acc body' s l.
Proof.
  intros Heq. revert s. induction l as [|x l IH]; intros s; simpl; [done|].
  rewrite Heq. destruct (body' s x); simpl; [apply IH | done].
Qed.





(** X15.  Evidence about the query variable itself is overridden: [consultar]
    returns the same result with and without it. *)
Theorem consultar_overrides_query_evidence (self : InterEnumeracion.estructura_red)
    (var_consulta : string) (evidencia : gmap string string) :
  InterEnumeracion.consultar self var_consulta evidencia
  = InterEnumeracion.consultar self var_consulta (delete var_consulta evidencia).
Proof.
  unfold InterEnumeracion.consultar.
  destruct (dict_subscript (InterEnumeracion.cpts self) var_consulta) as [tabla|]; [|done].
  cbn [mbind result_bind].
  destruct (dict_subscript tabla (InterEnumeracion.KStr "valores")) as [x|]; [|done].
  cbn [mbind result_bind].
  destruct (InterEnumeracion.iter_value x) as [valores|]; [|done].
  cbn [mbind result_bind]. f_equal. apply for_acc_ext. intros dq v.
  by rewrite insert_delete_eq.
Qed.

(** X16.  Chain rule.  When the evidence gives a value to every variable of
    the list and each conditional probability is found in the tables,
    [_enumerar_todo] returns the product of these probabilities. *)
Theorem enumerar_todo_observed (self : InterEnumeracion.estructura_red)
    (variables : list string) (evidencia : gmap string string) (ps : list Qc) :
  Forall2 (λ var p, ∃ valor, evidencia !! var = Some valor ∧
             InterEnumeracion._obtener_probabilidad self var valor evidencia
             = Ok (InterEnumeracion.VFloat p))
          variables ps →
  InterEnumeracion._enumerar_todo self variables evidencia = Ok (foldr Qcmult 1 ps).
Proof.
  induction 1 as [|var p variables ps (valor & Hvalor & Hp) _ IH]; simpl; [done|].
  rewrite Hvalor, Hp. cbn [mbind result_bind]. rewrite IH. done.
Qed.

Lemma enumerar_todo_observed_witness :
  InterEnumeracion._enumerar_todo InterEnumeracion.ESTRUCTURA_ALARMA
    ["Robo"; "Alarma"; "JuanLlama"]
    {["Robo" := "Si"; "Alarma" := "Si"; "JuanLlama" := "Si"]}
  = Ok (foldr Qcmult 1 [Q_of 1 1000; Q_of 95 100; Q_of 90 100]).
Proof.
  apply (enumerar_todo_observed InterEnumeracion.ESTRUCTURA_ALARMA
           ["Robo"; "Alarma"; "JuanLlama"]
           {["Robo" := "Si"; "Alarma" := "Si"; "JuanLlama" := "Si"]}).
  repeat constructor; exists "Si"%string; split; compute_done.
Defined.

(** ** Invariants of the factor operations *)

(** X17.  The evidence step in terms of weights: on a proper factor it
    succeeds, and the reduced factor weighs an assignment as the original
    does when the assignment gives every observed variable of the scope its
    observed value, and [0] otherwise. *)
Theorem reduce_factor_weight (evidence : gmap string string) (f : Factor) :
  proper_factor f →
  ∃ f', reduce_factor evidence f = Ok f' ∧ proper_factor f' ∧
        variables f' = variables f ∧
        ∀ ρ, weight f' ρ
             = if decide (agrees evidence (variables f) (value_of ρ <$> variables f))
               then weight f ρ else 0.
Proof.
  intros [[Hnd Hwf] Hkeys]. destruct (reduce_factor_Ok evidence f Hwf) as [f' Hf'].
  exists f'. split; [done|].
  destruct (reduce_factor_proper evidence (all_values [f]) f f' Hf') as (Hp & _ & Hvars).
  { done. }
  { eapply Forall_forall; [apply all_values_in|left]. }
  split_and!; [done..|]. intros ρ. by apply weight_reduce.
Qed.

Lemma reduce_factor_weight_witness :
  ∃ f', reduce_factor {["G" := "A"]} factor_DIG = Ok f' ∧ proper_factor f' ∧
        variables f' = variables factor_DIG ∧
        ∀ ρ, weight f' ρ
             = if decide (agrees {["G" := "A"]} (variables factor_DIG)
                            (value_of ρ <$> variables factor_DIG))
               then weight factor_DIG ρ else 0.
Proof. apply (reduce_factor_weight {["G" := "A"]} factor_DIG). compute_done. Defined.

(** X18.  [sum_out] keeps the invariant of a factor: from a scope without
    repetition, keys of the arity of the scope and no key twice, it returns
    a factor with the same three properties, whose scope has lost the
    variable. *)
Theorem sum_out_keeps_invariant (f : Factor) (v : string) :
  proper_factor f →
  proper_factor (sum_out f v) ∧ (v ∉ variables (sum_out f v)) ∧
  ∀ x, x ≠ v → (x ∈ variables (sum_out f v) ↔ x ∈ variables f).
Proof.
  intros Hf. split; [by apply sum_out_proper|]. rewrite sum_out_variables. split.
  - by intros [? _]%list_elem_of_filter.
  - intros x Hx. rewrite list_elem_of_filter. tauto.
Qed.

Lemma sum_out_keeps_invariant_witness :
  proper_factor (sum_out factor_DIG "I") ∧ ("I"%string ∉ variables (sum_out factor_DIG "I")) ∧
  ∀ x, x ≠ "I"%string →
       (x ∈ variables (sum_out factor_DIG "I") ↔ x ∈ variables factor_DIG).
Proof. apply (sum_out_keeps_invariant factor_DIG "I"). compute_done. Defined.

(** X19.  [multiply_factors] establishes the invariant of a factor: from two
    factors whose keys have the arity of their scopes it returns a factor
    with a scope without repetition, keys of the arity of that scope and no
    key twice. *)
Theorem multiply_factors_keeps_invariant (so : set_order) (f1 f2 f : Factor) :
  wf_factor f1 → wf_factor f2 → multiply_factors so f1 f2 = Ok f → proper_factor f.
Proof.
  intros Hwf1 Hwf2. rewrite multiply_factors_Ok by done. intros [= <-].
  apply product_factor_proper.
Qed.

Lemma multiply_factors_keeps_invariant_witness :
  proper_factor
    (mkFactor ["D"; "I"]
       [(["Alta"; "Alta"], Q_of 42 100); (["Alta"; "Baja"], Q_of 18 100);
        (["Baja"; "Alta"], Q_of 28 100); (["Baja"; "Baja"], Q_of 12 100)]).
Proof.
  apply (multiply_factors_keeps_invariant insertion_order factor_D factor_I);
    compute_done.
Defined.
